(** * util/threadpool.h: the worker pool as an interleaving state machine

    The class [leveldb::ThreadPool] owns [threadcount] worker threads that run
    [Task], a list of queued closures, the atomic counter [jobs_left], the
    atomic flags [bailout] and [finished], two mutexes and two condition
    variables.  Its behaviour is the set of interleavings of the workers with
    the threads that call [AddJob], [WaitAll], [JoinAll] and the destructor.

    Every thread is a program counter into the source; one step performs at
    most one access to a shared atomic, mutex or condition variable, together
    with the accesses to data that the held mutex protects.  A scheduler
    picks the thread that moves, so the semantics is an executable function
    [step], and an execution is a list of scheduler choices.

    The profiling counters of util/timer.h follow in the module [Timer]. *)

From Stdlib Require Import ZArith Lia List Bool.
From Stdlib Require String Ascii.
From stdpp Require Import base option list.
Import ListNotations.
Import String.StringSyntax.
Delimit Scope string_scope with string.
Local Open Scope Z_scope.

(** ** Machine integers *)

(** [std::atomic_int]: 32-bit two's complement, [++] and [--] wrap. *)
Definition INT_MAX : Z := 2 ^ 31 - 1.
Definition wrap_int (z : Z) : Z := (z + 2 ^ 31) mod 2 ^ 32 - 2 ^ 31.
Definition incr (z : Z) : Z := wrap_int (z + 1).
Definition decr (z : Z) : Z := wrap_int (z - 1).

(** Conversions of an [int] to [unsigned] and to [size_t] (LP64). *)
Definition to_unsigned (z : Z) : Z := z mod 2 ^ 32.
Definition to_size_t (z : Z) : Z := z mod 2 ^ 64.

(** [std::vector<std::thread>::max_size()]: [PTRDIFF_MAX / sizeof(std::thread)]
    with an 8-byte thread handle. *)
Definition vector_max_size : Z := (2 ^ 63 - 1) / 8.

(** ** Jobs, closures and futures *)

Inductive exn :=
| length_error          (* std::length_error, from vector::resize *)
| system_error          (* std::system_error, from thread::join *)
| future_error          (* std::future_error, from packaged_task::operator() *)
| broken_promise        (* std::future_error, from ~packaged_task *)
| user_error (code : Z) (* whatever a submitted callable throws *).

(** What the bound call [f(args...)] does when it is finally invoked. *)
Inductive callable :=
| Returns (v : Z)
| Throws (e : exn).

(** The shared state behind a [std::future]. *)
Inductive shared_state :=
| Pending
| Ready (v : Z)
| Failed (e : exn).

(** The two lambdas that are ever stored in a [std::function<void()>]: the
    one of [AddJob] (line 123) that calls the captured [packaged_task],
    whose future has index [fut], and the empty one of [next_job]
    (line 70). *)
Inductive closure :=
| Packaged (fut : nat) (f : callable)
| NoOp.

(** [std::packaged_task::operator()]: runs the callable and stores its value
    or the exception it threw in the shared state; a task whose state is
    already satisfied throws [future_error] to its caller instead. *)
Definition slot_of (f : callable) : shared_state :=
  match f with Returns v => Ready v | Throws e => Failed e end.

Definition invoke (cl : closure) (fs : list shared_state)
  : list shared_state * option exn :=
  match cl with
  | NoOp => (fs, None)
  | Packaged fut f =>
      match fs !! fut with
      | Some Pending => (<[fut := slot_of f]> fs, None)
      | _ => (fs, Some future_error)
      end
  end.

(** [~packaged_task]: the closure of line 123 is the only owner of its task
    ([job] is a [shared_ptr] that the closure alone captures), so the task is
    destroyed with the closure.  A task that is destroyed before it was
    called abandons its shared state: the state becomes ready and holds the
    [std::future_error] [broken_promise].  A state that is ready stays as it
    is. *)
Definition abandon (cl : closure) (fs : list shared_state) : list shared_state :=
  match cl with
  | NoOp => fs
  | Packaged fut _ =>
      match fs !! fut with
      | Some Pending => <[fut := Failed broken_promise]> fs
      | _ => fs
      end
  end.

(** [~list]: the closures are destroyed from the front to the back. *)
Definition abandon_all (q : list closure) (fs : list shared_state)
  : list shared_state :=
  fold_left (fun fs cl => abandon cl fs) q fs.

Arguments abandon_all : simpl never.

(** [std::future::get]: [None] while the caller would block. *)
Definition future_get (fs : list shared_state) (fut : nat) : option (Z + exn) :=
  match fs !! fut with
  | Some (Ready v) => Some (inl v)
  | Some (Failed e) => Some (inr e)
  | _ => None
  end.

(** ** Program counters *)

(** A worker thread, inside [Task] (lines 41-49) and [next_job] (55-74). *)
Inductive wpc :=
| TaskLoop                 (* 42: while( !bailout ) *)
| NjLock                   (* 57, and re-acquisition after a wake-up *)
| NjPred                   (* 61: queue.size() || bailout, mutex held *)
| NjBlock                  (* 61: predicate was false, about to sleep *)
| NjWaiting                (* 61: asleep on job_available_var *)
| NjBranch                 (* 64: if( !bailout ) *)
| NjInject                 (* 70-71: res = []{}; ++jobs_left *)
| NjReturn (res : closure) (* 73: return res, releasing job_lock *)
| TaskRun (res : closure)  (* 44: next_job()() *)
| TaskDec                  (* 46: --jobs_left *)
| TaskNotify               (* 47: wait_var.notify_one() *)
| TaskExited               (* the loop is left, the thread is over *)
| TaskTerminated (e : exn) (* an exception left Task: std::terminate *).

(** Who called [JoinAll], and who called [WaitAll]. *)
Inductive jframe := JUser | JDtor.
Inductive wframe := WaUser | WaJoinAll (k : jframe).

(** A thread that uses the pool. *)
Inductive cpc :=
| Idle
| AddLock (f : callable)      (* 117 *)
| AddEmplace (f : callable)   (* 119-125 *)
| AddIncr (fut : nat)         (* 127 *)
| AddNotify (fut : nat)       (* 128 *)
| AddReturn (fut : nat)       (* 129, releasing guard *)
| WaCheck (k : wframe)        (* 168 *)
| WaLock (k : wframe)         (* 169, and re-acquisition after a wake-up *)
| WaPred (k : wframe)         (* 171: jobs_left == 0, wait_mutex held *)
| WaBlock (k : wframe)        (* 171: predicate was false, about to sleep *)
| WaWaiting (k : wframe)      (* 171: asleep on wait_var *)
| WaUnlock (k : wframe)       (* 173 *)
| JaCheck (WaitForAll : bool) (k : jframe)              (* 145 *)
| JaSet (WaitForAll : bool) (k : jframe)                (* 152 *)
| JaNotify (WaitForAll : bool) (k : jframe)             (* 153 *)
| JaJoinable (WaitForAll : bool) (k : jframe) (i : nat) (* 155-156 *)
| JaJoin (WaitForAll : bool) (k : jframe) (i : nat)     (* 157 *)
| JaFinish (WaitForAll : bool) (k : jframe)             (* 158 *)
| DtorMembers                 (* 93: the members are destroyed *)
| Raised (e : exn)            (* the call was left by an exception *)
| Terminated                  (* std::terminate *).

(** ** The pool *)

Record state := {
  workers : list wpc;          (* the threads of execution behind [threads] *)
  threads : list bool;         (* std::thread::joinable() of threads[i] *)
  queue : list closure;
  jobs_left : Z;
  bailout : bool;
  finished : bool;
  queue_mutex : bool;          (* locked? *)
  wait_mutex : bool;
  threadcount : Z;
  futures : list shared_state;
  clients : list cpc;
  destroyed : bool
}.

Definition set_workers (ws : list wpc) (s : state) : state :=
  {| workers := ws; threads := threads s; queue := queue s;
     jobs_left := jobs_left s; bailout := bailout s; finished := finished s;
     queue_mutex := queue_mutex s; wait_mutex := wait_mutex s;
     threadcount := threadcount s; futures := futures s;
     clients := clients s; destroyed := destroyed s |}.

Definition set_threads (ts : list bool) (s : state) : state :=
  {| workers := workers s; threads := ts; queue := queue s;
     jobs_left := jobs_left s; bailout := bailout s; finished := finished s;
     queue_mutex := queue_mutex s; wait_mutex := wait_mutex s;
     threadcount := threadcount s; futures := futures s;
     clients := clients s; destroyed := destroyed s |}.

Definition set_queue (q : list closure) (s : state) : state :=
  {| workers := workers s; threads := threads s; queue := q;
     jobs_left := jobs_left s; bailout := bailout s; finished := finished s;
     queue_mutex := queue_mutex s; wait_mutex := wait_mutex s;
     threadcount := threadcount s; futures := futures s;
     clients := clients s; destroyed := destroyed s |}.

Definition set_jobs_left (z : Z) (s : state) : state :=
  {| workers := workers s; threads := threads s; queue := queue s;
     jobs_left := z; bailout := bailout s; finished := finished s;
     queue_mutex := queue_mutex s; wait_mutex := wait_mutex s;
     threadcount := threadcount s; futures := futures s;
     clients := clients s; destroyed := destroyed s |}.

Definition set_bailout (b : bool) (s : state) : state :=
  {| workers := workers s; threads := threads s; queue := queue s;
     jobs_left := jobs_left s; bailout := b; finished := finished s;
     queue_mutex := queue_mutex s; wait_mutex := wait_mutex s;
     threadcount := threadcount s; futures := futures s;
     clients := clients s; destroyed := destroyed s |}.

Definition set_finished (b : bool) (s : state) : state :=
  {| workers := workers s; threads := threads s; queue := queue s;
     jobs_left := jobs_left s; bailout := bailout s; finished := b;
     queue_mutex := queue_mutex s; wait_mutex := wait_mutex s;
     threadcount := threadcount s; futures := futures s;
     clients := clients s; destroyed := destroyed s |}.

Definition set_queue_mutex (b : bool) (s : state) : state :=
  {| workers := workers s; threads := threads s; queue := queue s;
     jobs_left := jobs_left s; bailout := bailout s; finished := finished s;
     queue_mutex := b; wait_mutex := wait_mutex s;
     threadcount := threadcount s; futures := futures s;
     clients := clients s; destroyed := destroyed s |}.

Definition set_wait_mutex (b : bool) (s : state) : state :=
  {| workers := workers s; threads := threads s; queue := queue s;
     jobs_left := jobs_left s; bailout := bailout s; finished := finished s;
     queue_mutex := queue_mutex s; wait_mutex := b;
     threadcount := threadcount s; futures := futures s;
     clients := clients s; destroyed := destroyed s |}.

Definition set_futures (fs : list shared_state) (s : state) : state :=
  {| workers := workers s; threads := threads s; queue := queue s;
     jobs_left := jobs_left s; bailout := bailout s; finished := finished s;
     queue_mutex := queue_mutex s; wait_mutex := wait_mutex s;
     threadcount := threadcount s; futures := fs;
     clients := clients s; destroyed := destroyed s |}.

Definition set_clients (cs : list cpc) (s : state) : state :=
  {| workers := workers s; threads := threads s; queue := queue s;
     jobs_left := jobs_left s; bailout := bailout s; finished := finished s;
     queue_mutex := queue_mutex s; wait_mutex := wait_mutex s;
     threadcount := threadcount s; futures := futures s;
     clients := cs; destroyed := destroyed s |}.

Definition set_destroyed (b : bool) (s : state) : state :=
  {| workers := workers s; threads := threads s; queue := queue s;
     jobs_left := jobs_left s; bailout := bailout s; finished := finished s;
     queue_mutex := queue_mutex s; wait_mutex := wait_mutex s;
     threadcount := threadcount s; futures := futures s;
     clients := clients s; destroyed := b |}.

Definition set_worker (w : nat) (pc : wpc) (s : state) : state :=
  set_workers (<[w := pc]> (workers s)) s.

Definition set_client (c : nat) (pc : cpc) (s : state) : state :=
  set_clients (<[c := pc]> (clients s)) s.

(** ** Construction (lines 77-86) and [Size] (98-100) *)

(** The pool right after a successful construction, seen by [nclients]
    threads that have not called anything yet.  The member initialisers
    clear the counter and both flags; the loop starts one thread per slot. *)
Definition new_pool (tc : Z) (nclients : nat) : state :=
  {| workers := replicate (Z.to_nat (to_unsigned tc)) TaskLoop;
     threads := replicate (Z.to_nat (to_unsigned tc)) true;
     queue := []; jobs_left := 0; bailout := false; finished := false;
     queue_mutex := false; wait_mutex := false;
     threadcount := tc; futures := [];
     clients := replicate nclients Idle; destroyed := false |}.

(** [threads.resize(threadcount)] converts the [int] to [size_t] and throws
    [std::length_error] beyond [max_size()]; nothing else is checked. *)
Definition ThreadPool (tc : Z) (nclients : nat) : exn + state :=
  if vector_max_size <? to_size_t tc then inl length_error
  else inr (new_pool tc nclients).

Definition Size (s : state) : Z := to_unsigned (threadcount s).

(** ** Condition variables *)

(** A thread asleep on a condition variable has to take the mutex again and
    to re-evaluate the predicate once it is woken. *)
Definition wake_worker (pc : wpc) : option wpc :=
  match pc with NjWaiting => Some NjLock | _ => None end.

Definition wake_client (pc : cpc) : option cpc :=
  match pc with WaWaiting k => Some (WaLock k) | _ => None end.

Definition asleep {A} (wake : A -> option A) (x : A) : bool :=
  match wake x with Some _ => true | None => false end.

(** [notify_one]: wakes one sleeper, the one the scheduler picks (it has to
    pick a sleeper when there is one); without any sleeper the notification
    is lost. *)
Definition notify_one {A} (wake : A -> option A) (pick : nat) (l : list A)
  : option (list A) :=
  match l !! pick with
  | Some x =>
      match wake x with
      | Some x' => Some (<[pick := x']> l)
      | None => if existsb (asleep wake) l then None else Some l
      end
  | None => if existsb (asleep wake) l then None else Some l
  end.

(** [notify_all]: wakes every sleeper. *)
Definition notify_all {A} (wake : A -> option A) (l : list A) : list A :=
  map (fun x => match wake x with Some x' => x' | None => x end) l.

(** ** Scheduler choices and observable events *)

Inductive tid := W (i : nat) | C (i : nat).

Inductive op :=
| OpAddJob (f : callable)
| OpWaitAll
| OpJoinAll (WaitForAll : bool)
| OpDestroy.

Inductive action :=
| Run (t : tid) (pick : nat)  (* thread [t] executes its next statement *)
| Call (c : nat) (o : op)     (* the idle thread [c] calls into the pool *)
| Spurious (t : tid)          (* a sleeper wakes up without notification *).

Inductive event :=
| EvCall (c : nat) (o : op)
| EvEnqueue (c : nat) (cl : closure)  (* queue.emplace_back *)
| EvAccepted (c : nat)                (* ++jobs_left of AddJob *)
| EvSubmitted (c : nat) (fut : nat)   (* AddJob returns the future *)
| EvDequeue (w : nat) (cl : closure)  (* queue.pop_front *)
| EvInjected (w : nat)                (* ++jobs_left of next_job *)
| EvRun (w : nat) (cl : closure)      (* the closure was executed *)
| EvFinished (w : nat)                (* --jobs_left of Task *)
| EvIdle (c : nat)                    (* WaitAll read a counter with no job left *)
| EvBailout (c : nat)                 (* bailout = true *)
| EvJoined (c : nat) (i : nat)        (* threads[i].join() returned *)
| EvStopped (c : nat)                 (* finished = true, JoinAll returns *)
| EvReturn (c : nat)                  (* WaitAll returns after its wait,
                                         JoinAll returns from a finished pool *)
| EvDestroyed (c : nat)               (* the pool object is gone *)
| EvTau                               (* any other statement *).

Definition op_entry (o : op) : cpc :=
  match o with
  | OpAddJob f => AddLock f
  | OpWaitAll => WaCheck WaUser
  | OpJoinAll b => JaCheck b JUser
  | OpDestroy => JaCheck true JDtor   (* 92: JoinAll() with its default *)
  end.

Definition ja_return (k : jframe) : cpc :=
  match k with JUser => Idle | JDtor => DtorMembers end.

Definition wa_return (k : wframe) : cpc :=
  match k with WaUser => Idle | WaJoinAll k => JaSet true k end.

Definition wa_return_event (c : nat) (k : wframe) : event :=
  match k with WaUser => EvReturn c | WaJoinAll _ => EvTau end.

Definition nonempty {A} (l : list A) : bool :=
  match l with [] => false | _ :: _ => true end.

Definition is_exited (pc : option wpc) : bool :=
  match pc with
  | Some TaskExited | Some (TaskTerminated _) => true
  | _ => false
  end.

(** ** [next_job] (lines 55-74) *)

Definition next_job (w : nat) (pc : wpc) (s : state) : option (event * state) :=
  match pc with
  | NjLock =>
      if queue_mutex s then None
      else Some (EvTau, set_worker w NjPred (set_queue_mutex true s))
  | NjPred =>
      Some (EvTau,
            set_worker w (if nonempty (queue s) || bailout s
                          then NjBranch else NjBlock) s)
  | NjBlock =>
      Some (EvTau, set_worker w NjWaiting (set_queue_mutex false s))
  | NjBranch =>
      if bailout s then Some (EvTau, set_worker w NjInject s)
      else match queue s with
           | [] => None  (* front() of an empty list is undefined *)
           | cl :: q =>
               Some (EvDequeue w cl, set_worker w (NjReturn cl) (set_queue q s))
           end
  | NjInject =>
      Some (EvInjected w,
            set_worker w (NjReturn NoOp) (set_jobs_left (incr (jobs_left s)) s))
  | NjReturn res =>
      Some (EvTau, set_worker w (TaskRun res) (set_queue_mutex false s))
  | _ => None
  end.

(** ** [Task] (lines 41-49) *)

Definition Task (w pick : nat) (pc : wpc) (s : state) : option (event * state) :=
  match pc with
  | TaskLoop =>
      Some (EvTau, set_worker w (if bailout s then TaskExited else NjLock) s)
  | TaskRun res =>
      let '(fs, escaped) := invoke res (futures s) in
      Some (EvRun w res,
            set_worker w (match escaped with
                          | None => TaskDec
                          | Some e => TaskTerminated e
                          end) (set_futures fs s))
  | TaskDec =>
      Some (EvFinished w,
            set_worker w TaskNotify (set_jobs_left (decr (jobs_left s)) s))
  | TaskNotify =>
      match notify_one wake_client pick (clients s) with
      | None => None
      | Some cs => Some (EvTau, set_worker w TaskLoop (set_clients cs s))
      end
  | TaskExited => None
  | TaskTerminated _ => None
  | _ => next_job w pc s  (* inside the call of line 44 *)
  end.

Definition worker_step (w pick : nat) (s : state) : option (event * state) :=
  match workers s !! w with
  | None => None
  | Some pc => Task w pick pc s
  end.

(** ** [AddJob] (lines 115-130) *)

Definition AddJob (c pick : nat) (pc : cpc) (s : state) : option (event * state) :=
  match pc with
  | AddLock f =>
      if queue_mutex s then None
      else Some (EvTau, set_client c (AddEmplace f) (set_queue_mutex true s))
  | AddEmplace f =>
      let fut := length (futures s) in
      Some (EvEnqueue c (Packaged fut f),
            set_client c (AddIncr fut)
              (set_queue (queue s ++ [Packaged fut f])
                 (set_futures (futures s ++ [Pending]) s)))
  | AddIncr fut =>
      Some (EvAccepted c,
            set_client c (AddNotify fut) (set_jobs_left (incr (jobs_left s)) s))
  | AddNotify fut =>
      match notify_one wake_worker pick (workers s) with
      | None => None
      | Some ws => Some (EvTau, set_client c (AddReturn fut) (set_workers ws s))
      end
  | AddReturn fut =>
      Some (EvSubmitted c fut, set_client c Idle (set_queue_mutex false s))
  | _ => None
  end.

(** ** [WaitAll] (lines 167-175) *)

Definition WaitAll (c : nat) (pc : cpc) (s : state) : option (event * state) :=
  match pc with
  | WaCheck k =>
      if 0 <? jobs_left s then Some (EvTau, set_client c (WaLock k) s)
      else Some (EvIdle c, set_client c (wa_return k) s)
  | WaLock k =>
      if wait_mutex s then None
      else Some (EvTau, set_client c (WaPred k) (set_wait_mutex true s))
  | WaPred k =>
      if jobs_left s =? 0 then Some (EvIdle c, set_client c (WaUnlock k) s)
      else Some (EvTau, set_client c (WaBlock k) s)
  | WaBlock k =>
      Some (EvTau, set_client c (WaWaiting k) (set_wait_mutex false s))
  | WaUnlock k =>
      Some (wa_return_event c k,
            set_client c (wa_return k) (set_wait_mutex false s))
  | _ => None
  end.

(** ** [JoinAll] (lines 142-160) *)

Definition JoinAll (c : nat) (pc : cpc) (s : state) : option (event * state) :=
  match pc with
  | JaCheck b k =>
      if finished s then Some (EvReturn c, set_client c (ja_return k) s)
      else Some (EvTau,
                 set_client c (if b then WaCheck (WaJoinAll k) else JaSet b k) s)
  | JaSet b k =>
      Some (EvBailout c, set_client c (JaNotify b k) (set_bailout true s))
  | JaNotify b k =>
      Some (EvTau,
            set_client c (JaJoinable b k 0)
              (set_workers (notify_all wake_worker (workers s)) s))
  | JaJoinable b k i =>
      match threads s !! i with
      | None => Some (EvTau, set_client c (JaFinish b k) s)
      | Some true => Some (EvTau, set_client c (JaJoin b k i) s)
      | Some false => Some (EvTau, set_client c (JaJoinable b k (S i)) s)
      end
  | JaJoin b k i =>
      match threads s !! i with
      | Some true =>
          if is_exited (workers s !! i)
          then Some (EvJoined c i,
                     set_client c (JaJoinable b k (S i))
                       (set_threads (<[i := false]> (threads s)) s))
          else None  (* join() blocks until the thread is over *)
      | _ => Some (EvTau, set_client c (Raised system_error) s)
      end
  | JaFinish b k =>
      Some (EvStopped c, set_client c (ja_return k) (set_finished true s))
  | _ => None
  end.

(** ** [~ThreadPool] (lines 91-93), after its call of [JoinAll] *)

(** The members are destroyed.  A [std::thread] that is still joinable calls
    [std::terminate].  The closures that are still in [queue] are destroyed
    with the list, and with each of them its packaged task: the futures of
    the jobs that were never taken become ready with [broken_promise].  The
    futures are in the hands of the callers and outlive the pool.  The other
    members hold no resource.  The object is gone then: [destroyed] is set,
    no statement of the class is executed any more, and the record keeps what
    the members held last, which nothing reads any more.  (C++ leaves
    undefined what happens when another thread still holds a mutex of the
    pool or sleeps on one of its condition variables at that time.) *)
Definition destroy_members (c : nat) (s : state) : option (event * state) :=
  if existsb (fun j => j) (threads s)
  then Some (EvTau, set_client c Terminated s)
  else Some (EvDestroyed c,
             set_client c Idle
               (set_destroyed true
                  (set_futures (abandon_all (queue s) (futures s)) s))).

Definition client_step (c pick : nat) (s : state) : option (event * state) :=
  match clients s !! c with
  | None => None
  | Some pc =>
    match pc with
    | AddLock _ | AddEmplace _ | AddIncr _ | AddNotify _ | AddReturn _ =>
        AddJob c pick pc s
    | WaCheck _ | WaLock _ | WaPred _ | WaBlock _ | WaWaiting _ | WaUnlock _ =>
        WaitAll c pc s
    | JaCheck _ _ | JaSet _ _ | JaNotify _ _ | JaJoinable _ _ _ | JaJoin _ _ _
    | JaFinish _ _ =>
        JoinAll c pc s
    | DtorMembers => destroy_members c s
    | Idle => None
    | Raised _ => None
    | Terminated => None
    end
  end.

(** ** The interleaving semantics *)

(** Nothing is defined on a destroyed pool. *)
Definition step (s : state) (a : action) : option (event * state) :=
  if destroyed s then None
  else match a with
       | Run (W w) pick => worker_step w pick s
       | Run (C c) pick => client_step c pick s
       | Call c o =>
           match clients s !! c with
           | Some Idle => Some (EvCall c o, set_client c (op_entry o) s)
           | _ => None
           end
       | Spurious (W w) =>
           match workers s !! w with
           | Some NjWaiting => Some (EvTau, set_worker w NjLock s)
           | _ => None
           end
       | Spurious (C c) =>
           match clients s !! c with
           | Some (WaWaiting k) => Some (EvTau, set_client c (WaLock k) s)
           | _ => None
           end
       end.

Fixpoint run (s : state) (sched : list action) : option (list event * state) :=
  match sched with
  | [] => Some ([], s)
  | a :: sched' =>
      match step s a with
      | None => None
      | Some (e, s') =>
          match run s' sched' with
          | None => None
          | Some (es, s'') => Some (e :: es, s'')
          end
      end
  end.

(** [reach s0 tr s]: some schedule leads from [s0] to [s] and emits [tr]. *)
Inductive reach (s0 : state) : list event -> state -> Prop :=
| reach_init : reach s0 [] s0
| reach_step tr s a e s' :
    reach s0 tr s -> step s a = Some (e, s') -> reach s0 (tr ++ [e]) s'.

(** ** Counting threads and events *)

Definition b2z (b : bool) : Z := if b then 1 else 0.

Fixpoint count {A} (p : A -> bool) (l : list A) : Z :=
  match l with
  | [] => 0
  | x :: l' => b2z (p x) + count p l'
  end.

(** Where the threads are. *)
Definition in_queue_cs_w (pc : wpc) : bool :=
  match pc with
  | NjPred | NjBlock | NjBranch | NjInject | NjReturn _ => true
  | _ => false
  end.

Definition in_queue_cs_c (pc : cpc) : bool :=
  match pc with
  | AddEmplace _ | AddIncr _ | AddNotify _ | AddReturn _ => true
  | _ => false
  end.

(** A worker that took a closure (or made one up) and has not yet
    decremented the counter for it. *)
Definition holding (pc : wpc) : bool :=
  match pc with
  | NjReturn _ | TaskRun _ | TaskDec | TaskTerminated _ => true
  | _ => false
  end.

(** A caller whose closure is in the queue but not yet counted. *)
Definition at_incr (pc : cpc) : bool :=
  match pc with AddIncr _ => true | _ => false end.

(** What happened so far. *)
Definition is_accepted (e : event) : bool :=
  match e with EvAccepted _ => true | _ => false end.
Definition is_injected (e : event) : bool :=
  match e with EvInjected _ => true | _ => false end.
Definition is_finished (e : event) : bool :=
  match e with EvFinished _ => true | _ => false end.

Definition accepted (tr : list event) : Z := count is_accepted tr.
Definition injected (tr : list event) : Z := count is_injected tr.
Definition completed (tr : list event) : Z := count is_finished tr.

(** Jobs accepted by [AddJob], plus no-op jobs made up by [next_job], minus
    jobs that finished executing. *)
Definition outstanding (tr : list event) : Z :=
  accepted tr + injected tr - completed tr.

Definition enqueued_of (e : event) : list closure :=
  match e with EvEnqueue _ cl => [cl] | _ => [] end.
Definition dequeued_of (e : event) : list closure :=
  match e with EvDequeue _ cl => [cl] | _ => [] end.
Definition executed_of (e : event) : list closure :=
  match e with EvRun _ (Packaged fut f) => [Packaged fut f] | _ => [] end.

(** The closures in the order in which they entered the queue, left it, and
    were executed (the made-up no-op closures left out). *)
Definition enqueued (tr : list event) : list closure := flat_map enqueued_of tr.
Definition dequeued (tr : list event) : list closure := flat_map dequeued_of tr.
Definition executed (tr : list event) : list closure := flat_map executed_of tr.

(** [x] comes before [y] in [l]. *)
Definition precedes {A} (x y : A) (l : list A) : Prop :=
  exists l1 l2 l3, l = l1 ++ x :: l2 ++ y :: l3.

(** ** Invariants *)

(** The facts about [jobs_left] that hold together in every state:
    the counter is the 32-bit image of the number of outstanding jobs; these
    are the queued closures and the ones that workers hold, less the closure
    of a caller between lines 125 and 127; [queue_mutex] is held by exactly
    the threads inside its critical sections. *)
Definition counter_inv (tr : list event) (s : state) : Prop :=
  jobs_left s = wrap_int (outstanding tr) /\
  outstanding tr + count at_incr (clients s)
    = Z.of_nat (length (queue s)) + count holding (workers s) /\
  count in_queue_cs_w (workers s) + count in_queue_cs_c (clients s)
    = b2z (queue_mutex s) /\
  count at_incr (clients s) <= Z.of_nat (length (queue s)).

(** The queued closure that a worker is about to execute. *)
Definition held_real (pc : wpc) : list closure :=
  match pc with
  | NjReturn (Packaged fut f) | TaskRun (Packaged fut f) => [Packaged fut f]
  | _ => []
  end.

(** The queue is first-in first-out, and every closure in it is a packaged
    task of its own. *)
Definition fifo_inv (tr : list event) (s : state) : Prop :=
  enqueued tr = dequeued tr ++ queue s /\
  NoDup (enqueued tr) /\
  (forall cl, cl ∈ enqueued tr ->
     exists fut f, cl = Packaged fut f /\ (fut < length (futures s))%nat).

(** With one worker, the closures are executed in the order in which they
    left the queue, one at a time. *)
Definition single_inv (tr : list event) (s : state) : Prop :=
  forall pc, workers s = [pc] -> dequeued tr = executed tr ++ held_real pc.

(** [threads[j]] was joined, for all [j] below [i], and for all [j]. *)
Definition joined_below (ts : list bool) (i : nat) : Prop :=
  forall j b, (j < i)%nat -> ts !! j = Some b -> b = false.

Definition all_joined (ts : list bool) : Prop :=
  forall j b, ts !! j = Some b -> b = false.

(** How far the loop of [JoinAll] (lines 155-157) has come. *)
Definition join_pc_inv (ts : list bool) (pc : cpc) : Prop :=
  match pc with
  | JaJoinable _ _ i | JaJoin _ _ i => joined_below ts i
  | JaFinish _ _ | DtorMembers => all_joined ts
  | _ => True
  end.

Definition join_inv (s : state) : Prop :=
  length (threads s) = length (workers s) /\
  (forall i, threads s !! i = Some false -> is_exited (workers s !! i) = true) /\
  (finished s = true -> all_joined (threads s)) /\
  Forall (join_pc_inv (threads s)) (clients s).

(** Whether thread [c] has, since its last call, found in [WaitAll] that no
    job is left. *)
Definition idle_upd (c : nat) (seen : bool) (e : event) : bool :=
  match e with
  | EvCall c' _ => if Nat.eqb c c' then false else seen
  | EvIdle c' => if Nat.eqb c c' then true else seen
  | _ => seen
  end.

Definition idle_seen (c : nat) (tr : list event) : bool :=
  fold_left (idle_upd c) tr false.

(** The places that [JoinAll(true)] reaches only through [WaitAll]. *)
Definition drained (pc : cpc) : bool :=
  match pc with
  | WaUnlock _ => true
  | JaSet true _ | JaNotify true _ | JaFinish true _ => true
  | JaJoinable true _ _ | JaJoin true _ _ => true
  | _ => false
  end.

Definition drain_inv (tr : list event) (s : state) : Prop :=
  forall c pc, clients s !! c = Some pc -> drained pc = true -> idle_seen c tr = true.

(** The closures of future [fut] that are queued, and that workers hold
    before they execute them. *)
Definition is_fut (fut : nat) (cl : closure) : bool :=
  match cl with Packaged fut' _ => Nat.eqb fut fut' | NoOp => false end.

Definition holds_fut (fut : nat) (pc : wpc) : bool :=
  match pc with
  | NjReturn cl | TaskRun cl => is_fut fut cl
  | _ => false
  end.

Definition is_terminated (pc : wpc) : bool :=
  match pc with TaskTerminated _ => true | _ => false end.

(** Every packaged task waits at one place at most, its shared state is
    still empty while it waits in a pool that exists, and no exception has
    left [Task]. *)
Definition pending_inv (s : state) : Prop :=
  count is_terminated (workers s) = 0 /\
  forall fut,
    count (is_fut fut) (queue s) + count (holds_fut fut) (workers s) <= 1 /\
    (destroyed s = false ->
     1 <= count (is_fut fut) (queue s) + count (holds_fut fut) (workers s) ->
     futures s !! fut = Some Pending).

(** ** Sample executions *)

Definition outcome (s0 : state) (sched : list action) : list event * state :=
  match run s0 sched with Some r => r | None => ([], s0) end.

(** The worker runs until it sleeps on the empty queue; the only caller
    calls [JoinAll(false)] and runs it to its end. *)
Definition sched_stop : list action :=
  [Run (W 0) 0; Run (W 0) 0; Run (W 0) 0; Run (W 0) 0;
   Call 0 (OpJoinAll false); Run (C 0) 0; Run (C 0) 0; Run (C 0) 0;
   Run (W 0) 0; Run (W 0) 0; Run (W 0) 0; Run (W 0) 0; Run (W 0) 0;
   Run (W 0) 0; Run (W 0) 0; Run (W 0) 0; Run (W 0) 0;
   Run (C 0) 0; Run (C 0) 0; Run (C 0) 0; Run (C 0) 0].

Definition stopped_pool : list event * state := outcome (new_pool 1 1) sched_stop.

(** One worker, one caller: a job is submitted while the worker is on its
    way to the queue. *)
Definition sched_submit : list action :=
  [Run (W 0) 0; Call 0 (OpAddJob (Throws (user_error 3)));
   Run (C 0) 0; Run (C 0) 0; Run (C 0) 0; Run (C 0) 0; Run (C 0) 0].

(** ... and the worker takes the job out of the queue. *)
Definition sched_take : list action :=
  sched_submit ++ [Run (W 0) 0; Run (W 0) 0; Run (W 0) 0; Run (W 0) 0].

(** The caller sets [bailout] while the worker is at line 64. *)
Definition sched_bail : list action :=
  [Call 0 (OpAddJob (Returns 1));
   Run (C 0) 0; Run (C 0) 0; Run (C 0) 0; Run (C 0) 0; Run (C 0) 0;
   Run (W 0) 0; Run (W 0) 0; Run (W 0) 0;
   Call 0 (OpJoinAll false); Run (C 0) 0; Run (C 0) 0].

Definition submitted_pool : list event * state := outcome (new_pool 1 1) sched_submit.
Definition taken_pool : list event * state := outcome (new_pool 1 1) sched_take.
Definition bailing_pool : list event * state := outcome (new_pool 1 1) sched_bail.

(** What [future::get] gives back for a callable that was executed. *)
Definition result_of (f : callable) : Z + exn :=
  match f with Returns v => inl v | Throws e => inr e end.

(** All threads of the pool are over. *)
Definition all_exited (ws : list wpc) : Prop :=
  Forall (fun pc => is_exited (Some pc) = true) ws.

Definition is_run (e : event) : bool :=
  match e with EvRun _ _ => true | _ => false end.

(** The steps of one whole [AddJob] by thread [c]. *)
Definition sched_add_job (c : nat) (f : callable) (pick : nat) : list action :=
  [Call c (OpAddJob f); Run (C c) pick; Run (C c) pick; Run (C c) pick;
   Run (C c) pick; Run (C c) pick].

(** [AddJob] on the pool that [JoinAll(false)] has stopped. *)
Definition late_submit : list event * state :=
  outcome (snd stopped_pool) (sched_add_job 0 (Returns 7) 0).

(** Two jobs submitted one after the other; the worker executes the first
    and takes the second. *)
Definition sched_two : list action :=
  sched_add_job 0 (Returns 1) 0 ++ sched_add_job 0 (Returns 2) 0 ++
  [Run (W 0) 0; Run (W 0) 0; Run (W 0) 0; Run (W 0) 0; Run (W 0) 0;
   Run (W 0) 0; Run (W 0) 0; Run (W 0) 0;
   Run (W 0) 0; Run (W 0) 0; Run (W 0) 0; Run (W 0) 0; Run (W 0) 0].

Definition two_jobs_pool : list event * state := outcome (new_pool 1 1) sched_two.

(** The caller sleeps in [JoinAll(true)] until the only job is done, then
    stops the pool and is about to set [finished]. *)
Definition sched_drain : list action :=
  sched_add_job 0 (Returns 5) 0 ++
  [Call 0 (OpJoinAll true); Run (C 0) 0; Run (C 0) 0; Run (C 0) 0;
   Run (C 0) 0; Run (C 0) 0;
   Run (W 0) 0; Run (W 0) 0; Run (W 0) 0; Run (W 0) 0; Run (W 0) 0;
   Run (W 0) 0; Run (W 0) 0; Run (W 0) 0;
   Run (C 0) 0; Run (C 0) 0; Run (C 0) 0].

Definition sched_drain_join : list action :=
  sched_drain ++
  [Run (C 0) 0; Run (C 0) 0; Run (W 0) 0;
   Run (C 0) 0; Run (C 0) 0; Run (C 0) 0].

Definition drained_pool : list event * state := outcome (new_pool 1 1) sched_drain.
Definition joined_pool : list event * state := outcome (new_pool 1 1) sched_drain_join.

(** The frames of the destructor, read as frames of a call by the user. *)
Definition as_user_w (k : wframe) : wframe :=
  match k with WaUser => WaUser | WaJoinAll _ => WaJoinAll JUser end.

Definition as_user (pc : cpc) : cpc :=
  match pc with
  | WaCheck k => WaCheck (as_user_w k)
  | WaLock k => WaLock (as_user_w k)
  | WaPred k => WaPred (as_user_w k)
  | WaBlock k => WaBlock (as_user_w k)
  | WaWaiting k => WaWaiting (as_user_w k)
  | WaUnlock k => WaUnlock (as_user_w k)
  | JaCheck b _ => JaCheck b JUser
  | JaSet b _ => JaSet b JUser
  | JaNotify b _ => JaNotify b JUser
  | JaJoinable b _ i => JaJoinable b JUser i
  | JaJoin b _ i => JaJoin b JUser i
  | JaFinish b _ => JaFinish b JUser
  | DtorMembers => Idle
  | pc => pc
  end.

Definition reframe (c : nat) (s : state) : state :=
  match clients s !! c with
  | Some pc => set_client c (as_user pc) s
  | None => s
  end.

(** The only caller destroys the pool while a job is queued: the destructor
    sleeps in [WaitAll] until the worker is done, then stops and joins it. *)
Definition sched_destroy : list action :=
  sched_add_job 0 (Returns 5) 0 ++
  [Call 0 OpDestroy; Run (C 0) 0; Run (C 0) 0; Run (C 0) 0;
   Run (C 0) 0; Run (C 0) 0;
   Run (W 0) 0; Run (W 0) 0; Run (W 0) 0; Run (W 0) 0; Run (W 0) 0;
   Run (W 0) 0; Run (W 0) 0; Run (W 0) 0;
   Run (C 0) 0; Run (C 0) 0; Run (C 0) 0;
   Run (C 0) 0; Run (C 0) 0; Run (W 0) 0;
   Run (C 0) 0; Run (C 0) 0; Run (C 0) 0].

Definition destroying_pool : list event * state := outcome (new_pool 1 1) sched_destroy.

(** A job is submitted and taken by the worker.  The caller enters [WaitAll],
    reads [jobs_left == 1] under [wait_mutex] at line 171 and is about to
    sleep; the worker executes the job, decrements the counter to zero,
    notifies [wait_var], on which nobody sleeps yet, and goes to sleep on the
    empty queue; then the caller goes to sleep. *)
Definition sched_lost : list action :=
  sched_add_job 0 (Returns 7) 0 ++
  [Run (W 0) 0; Run (W 0) 0; Run (W 0) 0; Run (W 0) 0; Run (W 0) 0;
   Call 0 OpWaitAll; Run (C 0) 0; Run (C 0) 0; Run (C 0) 0;
   Run (W 0) 0; Run (W 0) 0; Run (W 0) 0; Run (W 0) 0; Run (W 0) 0;
   Run (W 0) 0; Run (W 0) 0;
   Run (C 0) 0].

Definition lost_pool : list event * state := outcome (new_pool 1 1) sched_lost.

(** The same execution with the caller in [JoinAll(true)], and in the
    destructor. *)
Definition sched_stuck (o : op) : list action :=
  sched_add_job 0 (Returns 7) 0 ++
  [Run (W 0) 0; Run (W 0) 0; Run (W 0) 0; Run (W 0) 0; Run (W 0) 0;
   Call 0 o; Run (C 0) 0; Run (C 0) 0; Run (C 0) 0; Run (C 0) 0;
   Run (W 0) 0; Run (W 0) 0; Run (W 0) 0; Run (W 0) 0; Run (W 0) 0;
   Run (W 0) 0; Run (W 0) 0;
   Run (C 0) 0].

Definition sched_join_lost : list action := sched_stuck (OpJoinAll true).
Definition sched_dtor_lost : list action := sched_stuck OpDestroy.

Definition join_lost_pool : list event * state :=
  outcome (new_pool 1 1) sched_join_lost.
Definition dtor_lost_pool : list event * state :=
  outcome (new_pool 1 1) sched_dtor_lost.

(** Line 66 is reached with a job in the queue. *)
Definition branch_inv (s : state) : Prop :=
  forall w, workers s !! w = Some NjBranch -> bailout s = true \/ queue s <> [].

(** ** The life of a packaged task *)

(** The events that put the task of future [fut] into the queue, and that
    execute it. *)
Definition enq_fut (fut : nat) (e : event) : bool :=
  match e with EvEnqueue _ cl => is_fut fut cl | _ => false end.

Definition ran_fut (fut : nat) (e : event) : bool :=
  match e with EvRun _ cl => is_fut fut cl | _ => false end.

(** Every future was handed out by one [AddJob]; its task is in the queue,
    or held by a worker, or was executed; and in a pool that exists the
    future is empty exactly until the task is executed. *)
Definition life_inv (tr : list event) (s : state) : Prop :=
  forall fut,
    count (enq_fut fut) tr
    = count (is_fut fut) (queue s) + count (holds_fut fut) (workers s)
      + count (ran_fut fut) tr /\
    count (enq_fut fut) tr = b2z (Nat.ltb fut (length (futures s))) /\
    (count (ran_fut fut) tr = 0 -> (fut < length (futures s))%nat ->
     destroyed s = false -> futures s !! fut = Some Pending) /\
    (1 <= count (ran_fut fut) tr -> futures s !! fut <> Some Pending).

(** What was executed left its outcome in its own future, and had been put
    into the queue by a caller. *)
Definition outcome_inv (tr : list event) (s : state) : Prop :=
  (forall w fut f, EvRun w (Packaged fut f) ∈ tr ->
     futures s !! fut = Some (slot_of f) /\
     exists c, EvEnqueue c (Packaged fut f) ∈ tr) /\
  (forall cl, cl ∈ queue s -> exists c, EvEnqueue c cl ∈ tr) /\
  (forall w fut f,
     workers s !! w = Some (NjReturn (Packaged fut f)) \/
     workers s !! w = Some (TaskRun (Packaged fut f)) ->
     exists c, EvEnqueue c (Packaged fut f) ∈ tr).

(** What a worker leaves of the pool [s] when it has gone through lines 46
    and 47 after a job: it is back at line 42 and the counter is one less;
    the other members are as they were.  The futures and the threads that
    use the pool are not part of this. *)
Definition job_accounted (w : nat) (s s3 : state) : Prop :=
  workers s3 = <[w := TaskLoop]> (workers s) /\
  jobs_left s3 = jobs_left s - 1 /\
  queue s3 = queue s /\ threads s3 = threads s /\
  bailout s3 = bailout s /\ finished s3 = finished s /\
  queue_mutex s3 = queue_mutex s /\ wait_mutex s3 = wait_mutex s /\
  threadcount s3 = threadcount s /\ destroyed s3 = destroyed s.

(** ** [JobsRemaining] (lines 105-108) *)

(** The call takes [queue_mutex], reads [queue.size()] and releases the
    mutex again; it changes nothing, so it is one observation of a state in
    which the mutex is free ([None]: the caller has to wait).  The [size_t]
    is returned as [unsigned]. *)
Definition JobsRemaining (s : state) : option Z :=
  if queue_mutex s then None
  else Some (to_unsigned (Z.of_nat (length (queue s)))).

(** Inside the critical section of [wait_mutex]. *)
Definition in_wait_cs (pc : cpc) : bool :=
  match pc with WaPred _ | WaBlock _ | WaUnlock _ => true | _ => false end.

Definition wait_mutex_inv (s : state) : Prop :=
  count in_wait_cs (clients s) = b2z (wait_mutex s).

(** Past line 152 of [JoinAll]. *)
Definition past_bailout (pc : cpc) : bool :=
  match pc with
  | JaNotify _ _ | JaJoinable _ _ _ | JaJoin _ _ _ | JaFinish _ _ => true
  | _ => false
  end.

Definition exit_inv (s : state) : Prop :=
  (forall w, workers s !! w = Some TaskExited -> bailout s = true) /\
  (forall c pc, clients s !! c = Some pc -> past_bailout pc = true ->
     bailout s = true) /\
  (finished s = true -> bailout s = true).

(** The worker is about to sleep on the empty queue when the caller runs
    [JoinAll(false)] up to its [join()]; then the worker goes to sleep. *)
Definition sched_hang : list action :=
  [Run (W 0) 0; Run (W 0) 0; Run (W 0) 0;
   Call 0 (OpJoinAll false); Run (C 0) 0; Run (C 0) 0; Run (C 0) 0;
   Run (W 0) 0; Run (C 0) 0].

Definition hung_pool : list event * state := outcome (new_pool 1 1) sched_hang.

(** A job is queued, [JoinAll(false)] stops the pool before the worker has
    looked at the queue. *)
Definition sched_abandon : list action :=
  sched_add_job 0 (Returns 9) 0 ++
  [Call 0 (OpJoinAll false); Run (C 0) 0; Run (C 0) 0; Run (C 0) 0;
   Run (W 0) 0;
   Run (C 0) 0; Run (C 0) 0; Run (C 0) 0; Run (C 0) 0].

Definition abandoned_pool : list event * state := outcome (new_pool 1 1) sched_abandon.

(** ... and then the caller destroys the pool. *)
Definition sched_dtor : list action := [Call 0 OpDestroy; Run (C 0) 0; Run (C 0) 0].

Definition broken_pool : list event * state :=
  outcome (snd abandoned_pool) sched_dtor.

(** * util/timer.h: the profiling counters *)

Module Timer.

(** The steps that are timed (lines 23-34); [BEGIN] is 0 and [END] is 7. *)
Inductive TimerStep :=
| BEGIN
| WRITE_IMMU_TO_LEVEL0
| TOTAL_MOVE_TO_NVMTABLE
| COMPUTE_OVERLLAP
| PICK_COMPACTION
| DO_COMPACTION_WORK
| DO_SPLITCOMPACTION_WORK
| END.

Definition index (step : TimerStep) : nat :=
  match step with
  | BEGIN => 0
  | WRITE_IMMU_TO_LEVEL0 => 1
  | TOTAL_MOVE_TO_NVMTABLE => 2
  | COMPUTE_OVERLLAP => 3
  | PICK_COMPACTION => 4
  | DO_COMPACTION_WORK => 5
  | DO_SPLITCOMPACTION_WORK => 6
  | END => 7
  end.

#[global] Instance string_inhabited : Inhabited String.string :=
  populate String.EmptyString.

(** [uint64_t] arithmetic wraps. *)
Definition uint64 (z : Z) : Z := z mod 2 ^ 64.

(** The five arrays of 200 slots each (lines 38-42). *)
Definition SLOTS : nat := 200.

Record Timer := {
  micros_array : list Z;
  timer_micros : list Z;
  timer_count : list Z;
  timer_count_additional : list Z;
  message : list String.string
}.

Definition well_formed (t : Timer) : Prop :=
  length (micros_array t) = SLOTS /\
  length (timer_micros t) = SLOTS /\
  length (timer_count t) = SLOTS /\
  length (timer_count_additional t) = SLOTS /\
  length (message t) = SLOTS.

(** The loops of [clear], [DebugString] and [AppendTimerInfo] run [i] from
    [BEGIN] up to, and without, [END]. *)
Definition steps : list nat := seq (index BEGIN) (index END - index BEGIN).

(** [clear] (lines 82-87). *)
Definition clear_slot (t : Timer) (i : nat) : Timer :=
  {| micros_array := <[i := 0]> (micros_array t);
     timer_micros := <[i := 0]> (timer_micros t);
     timer_count := <[i := 0]> (timer_count t);
     timer_count_additional := <[i := 0]> (timer_count_additional t);
     message := message t |}.

Definition clear (t : Timer) : Timer := fold_left clear_slot steps t.

(** [init] (lines 52-60). *)
Definition set_message (step : TimerStep) (name : String.string) (t : Timer) : Timer :=
  {| micros_array := micros_array t;
     timer_micros := timer_micros t;
     timer_count := timer_count t;
     timer_count_additional := timer_count_additional t;
     message := <[index step := name]> (message t) |}.

Definition init (t : Timer) : Timer :=
  clear
    (set_message DO_SPLITCOMPACTION_WORK "DO_SPLITCOMPACTION_WORK"%string
    (set_message DO_COMPACTION_WORK "DO_COMPACTION_WORK"%string
    (set_message PICK_COMPACTION "PICK_COMPACTION"%string
    (set_message COMPUTE_OVERLLAP "COMPUTE_OVERLLAP"%string
    (set_message TOTAL_MOVE_TO_NVMTABLE "TOTAL_MOVE_TO_NVMTABLE"%string
    (set_message WRITE_IMMU_TO_LEVEL0 "WRITE_IMMU_TO_LEVEL0"%string t)))))).

(** The constructor (lines 45-47) calls [init] on the storage of the object:
    the strings are empty, the numbers are whatever the memory holds. *)
Definition storage (a b c d : list Z) : Timer :=
  {| micros_array := a; timer_micros := b; timer_count := c;
     timer_count_additional := d;
     message := replicate SLOTS String.EmptyString |}.

Definition new (a b c d : list Z) : Timer := init (storage a b c d).

(** [StartTimer] (lines 62-65); [now] is what [NowMicros()] returns. *)
Definition StartTimer (step : TimerStep) (now : Z) (t : Timer) : Timer :=
  {| micros_array := <[index step := now]> (micros_array t);
     timer_micros := timer_micros t;
     timer_count := timer_count t;
     timer_count_additional := timer_count_additional t;
     message := message t |}.

(** [Record] (lines 67-71).  The [assert] aborts ([None]) unless the code is
    compiled with [NDEBUG]. *)
Definition Record (NDEBUG : bool) (step : TimerStep) (now : Z) (t : Timer)
  : option Timer :=
  let i := index step in
  if negb NDEBUG && (micros_array t !!! i =? 0) then None
  else Some
    {| micros_array := micros_array t;
       timer_micros :=
         <[i := uint64 (timer_micros t !!! i + uint64 (now - micros_array t !!! i))]>
           (timer_micros t);
       timer_count := <[i := uint64 (timer_count t !!! i + 1)]> (timer_count t);
       timer_count_additional := timer_count_additional t;
       message := message t |}.

(** [Record] with an additional count (lines 73-80). *)
Definition Record_additional (NDEBUG : bool) (step : TimerStep)
    (additional_count now : Z) (t : Timer) : option Timer :=
  let i := index step in
  if negb NDEBUG && (micros_array t !!! i =? 0) then None
  else Some
    {| micros_array := micros_array t;
       timer_micros :=
         <[i := uint64 (timer_micros t !!! i + uint64 (now - micros_array t !!! i))]>
           (timer_micros t);
       timer_count := <[i := uint64 (timer_count t !!! i + 1)]> (timer_count t);
       timer_count_additional :=
         <[i := uint64 (timer_count_additional t !!! i + additional_count)]>
           (timer_count_additional t);
       message := message t |}.

(** [AppendTimerInfo] (lines 114-126); [None] is the null pointer. *)
Definition append_slot (other : Timer) (t : Timer) (i : nat) : Timer :=
  if 0 <? timer_count other !!! i then
    {| micros_array := micros_array t;
       timer_micros :=
         <[i := uint64 (timer_micros t !!! i + timer_micros other !!! i)]>
           (timer_micros t);
       timer_count :=
         <[i := uint64 (timer_count t !!! i + timer_count other !!! i)]>
           (timer_count t);
       timer_count_additional :=
         <[i := uint64 (timer_count_additional t !!! i
                        + timer_count_additional other !!! i)]>
           (timer_count_additional t);
       message := message t |}
  else t.

Definition AppendTimerInfo (timer : option Timer) (t : Timer) : Timer :=
  match timer with
  | None => t
  | Some other => fold_left (append_slot other) steps t
  end.

(** [DebugString] (lines 89-112).  [AppendNumberTo] of util/logging.h, which
    appends the printout of a number to a string, is not part of these
    sources and is a parameter. *)
Section Report.
Variable AppendNumberTo : String.string -> Z -> String.string.

Definition newline : String.string :=
  String.String (Ascii.ascii_of_nat 10) String.EmptyString.

Definition report_slot (t : Timer) (result : String.string) (i : nat)
  : String.string :=
  if 0 <? timer_count t !!! i then
    let r1 := String.append (String.append result (message t !!! i))
                ": timer_micros: "%string in
    let r2 := AppendNumberTo r1 (timer_micros t !!! i) in
    let r3 := String.append r2 " timer_count: "%string in
    let r4 := AppendNumberTo r3 (timer_count t !!! i) in
    let r5 := String.append r4 " timer_count_additional: "%string in
    let r6 := AppendNumberTo r5 (timer_count_additional t !!! i) in
    String.append r6 newline
  else result.

Definition DebugString (t : Timer) : String.string :=
  fold_left (report_slot t) steps String.EmptyString.
End Report.

(** A timer in some memory, for the examples. *)
Definition sample : Timer :=
  new (replicate SLOTS 5) (replicate SLOTS 6) (replicate SLOTS 7) (replicate SLOTS 8).

(** What a loop over [steps] that rewrites slot [i] of one array makes of
    that array. *)
Definition map_range (f : nat -> Z -> Z) (n : nat) (a : list Z) : list Z :=
  fold_left (fun a i => <[i := f i (a !!! i)]> a) (seq 0 n) a.

End Timer.

(** * Properties *)

(** ** Arithmetic of the counter *)

Lemma wrap_int_small z : - 2 ^ 31 <= z <= INT_MAX -> wrap_int z = z.
Proof.
  unfold wrap_int, INT_MAX. intros Hz.
  rewrite Z.mod_small by lia. lia.
Qed.

Lemma wrap_int_add z k : wrap_int (wrap_int z + k) = wrap_int (z + k).
Proof.
  unfold wrap_int.
  replace ((z + 2 ^ 31) mod 2 ^ 32 - 2 ^ 31 + k + 2 ^ 31)
    with ((z + 2 ^ 31) mod 2 ^ 32 + k) by lia.
  rewrite Zplus_mod_idemp_l. f_equal. f_equal. lia.
Qed.

Lemma incr_wrap z : incr (wrap_int z) = wrap_int (z + 1).
Proof. apply wrap_int_add. Qed.

Lemma decr_wrap z : decr (wrap_int z) = wrap_int (z - 1).
Proof. unfold decr. apply (wrap_int_add z (-1)). Qed.

(** ** Counting *)

Section Count.
Context {A : Type} (p : A -> bool).

Lemma b2z_range b : 0 <= b2z b <= 1.
Proof. destruct b; simpl; lia. Qed.

Lemma count_nonneg (l : list A) : 0 <= count p l.
Proof. induction l as [|x l IH]; simpl; [lia|]. pose proof (b2z_range (p x)). lia. Qed.

Lemma count_app (l1 l2 : list A) : count p (l1 ++ l2) = count p l1 + count p l2.
Proof. induction l1 as [|x l1 IH]; simpl; lia. Qed.

Lemma count_snoc (l : list A) x : count p (l ++ [x]) = count p l + b2z (p x).
Proof. rewrite count_app. simpl. lia. Qed.

Lemma count_insert (l : list A) i x y :
  l !! i = Some x -> count p (<[i := y]> l) = count p l - b2z (p x) + b2z (p y).
Proof.
  revert i. induction l as [|z l IH]; intros [|i] H; simpl in *; try discriminate.
  - injection H as ->. lia.
  - rewrite (IH _ H). lia.
Qed.

Lemma count_pos (l : list A) i x : l !! i = Some x -> p x = true -> 1 <= count p l.
Proof.
  revert i. induction l as [|z l IH]; intros [|i] H Hp; simpl in *; try discriminate.
  - injection H as ->. rewrite Hp. pose proof (count_nonneg l). simpl. lia.
  - pose proof (IH _ H Hp). pose proof (b2z_range (p z)). lia.
Qed.

Lemma count_replicate_false n x : p x = false -> count p (replicate n x) = 0.
Proof. intros Hp. induction n as [|n IH]; simpl; [reflexivity|]. rewrite Hp, IH. reflexivity. Qed.

Lemma count_le (q : A -> bool) (l : list A) :
  (forall x, p x = true -> q x = true) -> count p l <= count q l.
Proof.
  intros Hpq. induction l as [|x l IH]; simpl; [lia|].
  destruct (p x) eqn:Hp; [rewrite (Hpq _ Hp)|]; simpl; [lia|].
  pose proof (b2z_range (q x)). lia.
Qed.

Lemma count_notify_one (wake : A -> option A) pick (l l' : list A) :
  (forall x x', wake x = Some x' -> p x' = p x) ->
  notify_one wake pick l = Some l' -> count p l' = count p l.
Proof.
  intros Hw. unfold notify_one.
  destruct (l !! pick) as [x|] eqn:Hl.
  - destruct (wake x) as [x'|] eqn:Hx.
    + intros [= <-]. rewrite (count_insert _ _ _ _ Hl), (Hw _ _ Hx). lia.
    + destruct (existsb _ _); [discriminate|]. congruence.
  - destruct (existsb _ _); [discriminate|]. congruence.
Qed.

Lemma count_notify_all (wake : A -> option A) (l : list A) :
  (forall x x', wake x = Some x' -> p x' = p x) ->
  count p (notify_all wake l) = count p l.
Proof.
  intros Hw. induction l as [|x l IH]; simpl; [reflexivity|].
  rewrite IH. destruct (wake x) as [x'|] eqn:Hx; [rewrite (Hw _ _ Hx)|]; reflexivity.
Qed.
End Count.

Lemma wake_worker_inv pc pc' : wake_worker pc = Some pc' -> pc = NjWaiting /\ pc' = NjLock.
Proof. destruct pc; simpl; intros [= <-]; auto. Qed.

Lemma wake_client_inv pc pc' :
  wake_client pc = Some pc' -> exists k, pc = WaWaiting k /\ pc' = WaLock k.
Proof. destruct pc; simpl; intros [= <-]; eauto. Qed.

(** ** Executions *)

Lemma reach_front s0 a e s1 tr s :
  step s0 a = Some (e, s1) -> reach s1 tr s -> reach s0 (e :: tr) s.
Proof.
  intros Hs Hr. induction Hr as [|tr s a' e' s' _ IH Hs'].
  - apply (reach_step s0 [] s0 a e s1 (reach_init s0) Hs).
  - change (e :: tr ++ [e']) with ((e :: tr) ++ [e']).
    eapply reach_step; eauto.
Qed.

Lemma run_reach sched : forall s0 tr s, run s0 sched = Some (tr, s) -> reach s0 tr s.
Proof.
  induction sched as [|a sched IH]; simpl; intros s0 tr s H.
  - injection H as <- <-. constructor.
  - destruct (step s0 a) as [[e s1]|] eqn:Hs; [|discriminate].
    destruct (run s1 sched) as [[es s2]|] eqn:Hr; [|discriminate].
    injection H as <- <-. eapply reach_front; eauto.
Qed.

(** Case analysis on one step: every statement of the source in turn. *)
Ltac break_step H :=
  repeat match type of H with
    | context [match ?x with _ => _ end] =>
        first [is_var x; destruct x | destruct x eqn:?];
        cbv beta iota in H; try discriminate H
    end.

Ltac step_cases H :=
  unfold step in H;
  destruct (destroyed _) eqn:?; [discriminate H|];
  match type of H with
  | match ?a with _ => _ end = _ => destruct a as [[?w|?c] ?pick|?c ?o|[?w|?c]]
  end;
  [ unfold worker_step, Task, next_job in H
  | unfold client_step, AddJob, WaitAll, JoinAll, destroy_members in H | | | ];
  break_step H;
  injection H as <- <-;
  repeat match goal with
    | k : wframe |- _ => destruct k
    | k : jframe |- _ => destruct k
    | o : op |- _ => destruct o
    end.


Lemma reach_inv s0 (I : list event -> state -> Prop) :
  I [] s0 ->
  (forall tr s a e s',
      reach s0 tr s -> I tr s -> step s a = Some (e, s') -> I (tr ++ [e]) s') ->
  forall tr s, reach s0 tr s -> I tr s.
Proof.
  intros H0 Hstep tr s Hr. induction Hr; eauto.
Qed.

Lemma length_notify_one {A} (wake : A -> option A) pick (l l' : list A) :
  notify_one wake pick l = Some l' -> length l' = length l.
Proof.
  unfold notify_one. intros H.
  repeat match type of H with
    | context [match ?x with _ => _ end] => destruct x; try discriminate H
    end; injection H as <-; rewrite ?length_insert; reflexivity.
Qed.

Lemma length_notify_all {A} (wake : A -> option A) (l : list A) :
  length (notify_all wake l) = length l.
Proof. unfold notify_all. apply length_map. Qed.

(** The pool never changes its number of threads. *)
Lemma step_length s a e s' :
  step s a = Some (e, s') ->
  length (workers s') = length (workers s) /\
  length (threads s') = length (threads s) /\
  length (clients s') = length (clients s) /\
  threadcount s' = threadcount s.
Proof.
  intros H. step_cases H; simpl.
  all: rewrite ?length_insert, ?length_notify_all.
  all: repeat match goal with
         | H : notify_one _ _ _ = Some _ |- _ => apply length_notify_one in H; rewrite H
         end.
  all: repeat split; reflexivity.
Qed.

(** ** Mutual exclusion and the balance of the counter *)

Ltac count_norm :=
  repeat match goal with
    | H : ?l !! ?i = Some ?x |- context [count ?p (<[?i := ?y]> ?l)] =>
        rewrite (count_insert p l i x y H)
    | H : notify_one wake_worker _ ?l = Some ?l' |- context [count ?p ?l'] =>
        rewrite (count_notify_one p wake_worker _ l l'
                   ltac:(intros ? ? [-> ->]%wake_worker_inv; reflexivity) H)
    | H : notify_one wake_client _ ?l = Some ?l' |- context [count ?p ?l'] =>
        rewrite (count_notify_one p wake_client _ l l'
                   ltac:(intros ? ? (? & -> & ->)%wake_client_inv; reflexivity) H)
    | |- context [count ?p (notify_all wake_worker ?l)] =>
        rewrite (count_notify_all p wake_worker l
                   ltac:(intros ? ? [-> ->]%wake_worker_inv; reflexivity))
    end.

Ltac count_facts :=
  try match goal with
    | H : workers _ !! _ = Some _ |- _ =>
        pose proof (count_pos in_queue_cs_w _ _ _ H eq_refl)
    end;
  try match goal with
    | H : clients _ !! _ = Some _ |- _ =>
        pose proof (count_pos in_queue_cs_c _ _ _ H eq_refl)
    end;
  try match goal with
    | H : clients _ !! _ = Some _ |- _ =>
        pose proof (count_pos at_incr _ _ _ H eq_refl)
    end.

Lemma counter_inv_init tc m : counter_inv [] (new_pool tc m).
Proof.
  unfold counter_inv, new_pool; simpl.
  rewrite !count_replicate_false by reflexivity.
  repeat split; reflexivity.
Qed.

Lemma counter_inv_step tr s a e s' :
  counter_inv tr s -> step s a = Some (e, s') -> counter_inv (tr ++ [e]) s'.
Proof.
  intros (Hj & Hc & Hm & Hq) H.
  pose proof (count_le at_incr in_queue_cs_c (clients s)
                ltac:(intros []; simpl; congruence)) as Hle.
  pose proof (count_nonneg in_queue_cs_w (workers s)) as Hw0.
  pose proof (count_nonneg in_queue_cs_c (clients s)) as Hc1.
  pose proof (count_nonneg at_incr (clients s)) as Hc0.
  unfold counter_inv, outstanding, accepted, injected, completed in *.
  rewrite !count_snoc.
  step_cases H; simpl.
  all: count_facts; count_norm; simpl.
  all: rewrite ?length_app; simpl length.
  all: rewrite ?Hj, ?incr_wrap, ?decr_wrap.
  all: destruct (queue_mutex s); simpl in *.
  all: repeat split; first [lia | f_equal; lia].
Qed.

Lemma counter_inv_reach tc m tr s :
  reach (new_pool tc m) tr s -> counter_inv tr s.
Proof.
  apply reach_inv; [apply counter_inv_init|].
  intros; eapply counter_inv_step; eauto.
Qed.

Lemma outstanding_nonneg tc m tr s :
  reach (new_pool tc m) tr s -> 0 <= outstanding tr.
Proof.
  intros (_ & Hc & _ & Hq)%counter_inv_reach.
  pose proof (count_nonneg holding (workers s)). lia.
Qed.

(** ** First in, first out *)

Lemma invoke_length cl fs fs' esc :
  invoke cl fs = (fs', esc) -> length fs' = length fs.
Proof.
  destruct cl as [fut f|]; simpl; [|congruence].
  destruct (fs !! fut) as [[]|]; intros [= <- <-]; rewrite ?length_insert; reflexivity.
Qed.

Lemma lookup_insert_cases {A} (l : list A) i x j y :
  <[i := x]> l !! j = Some y -> (i = j /\ x = y) \/ (i <> j /\ l !! j = Some y).
Proof. intros H%list_lookup_insert_Some. tauto. Qed.

(** What the destruction of the queue does to the futures. *)
Lemma abandon_length cl fs : length (abandon cl fs) = length fs.
Proof.
  destruct cl as [fut f|]; simpl; [|reflexivity].
  destruct (fs !! fut) as [[]|]; rewrite ?length_insert; reflexivity.
Qed.

Lemma abandon_all_length q fs : length (abandon_all q fs) = length fs.
Proof.
  unfold abandon_all. revert fs.
  induction q as [|cl q IH]; intros fs; simpl; [reflexivity|].
  rewrite IH. apply abandon_length.
Qed.

Lemma abandon_lookup cl fs i x :
  abandon cl fs !! i = Some x ->
  fs !! i = Some x \/ (fs !! i = Some Pending /\ x = Failed broken_promise).
Proof.
  destruct cl as [fut f|]; simpl; [|auto].
  destruct (fs !! fut) as [[]|] eqn:Hf; auto.
  intros [[<- <-]|[_ H]]%lookup_insert_cases; auto.
Qed.

Lemma abandon_all_lookup q fs i x :
  abandon_all q fs !! i = Some x ->
  fs !! i = Some x \/ (fs !! i = Some Pending /\ x = Failed broken_promise).
Proof.
  unfold abandon_all. revert fs.
  induction q as [|cl q IH]; intros fs; simpl; [auto|].
  intros [H|[H ->]]%IH.
  - apply abandon_lookup in H. exact H.
  - apply abandon_lookup in H as [H|[H [=]]]. auto.
Qed.

Lemma abandon_ready cl fs i x :
  fs !! i = Some x -> x <> Pending -> abandon cl fs !! i = Some x.
Proof.
  intros Hi Hx. destruct cl as [fut f|]; simpl; [|exact Hi].
  destruct (fs !! fut) as [[]|] eqn:Hf; try exact Hi.
  rewrite list_lookup_insert_ne; [exact Hi|]. intros <-. congruence.
Qed.

Lemma abandon_all_ready q fs i x :
  fs !! i = Some x -> x <> Pending -> abandon_all q fs !! i = Some x.
Proof.
  unfold abandon_all. revert fs.
  induction q as [|cl q IH]; intros fs Hi Hx; simpl; [exact Hi|].
  apply IH; [|exact Hx]. apply abandon_ready; assumption.
Qed.

Lemma abandon_all_None q fs i : fs !! i = None -> abandon_all q fs !! i = None.
Proof.
  intros H. apply lookup_ge_None. rewrite abandon_all_length.
  apply lookup_ge_None. exact H.
Qed.

(** The future of a task that is in the queue and was not called is broken
    afterwards. *)
Lemma abandon_all_queued q fs fut f :
  Packaged fut f ∈ q -> fs !! fut = Some Pending ->
  abandon_all q fs !! fut = Some (Failed broken_promise).
Proof.
  unfold abandon_all. revert fs.
  induction q as [|cl q IH]; intros fs Hin Hf; [inversion Hin|]. simpl.
  apply elem_of_cons in Hin as [<-|Hin].
  - apply (abandon_all_ready q); [|discriminate].
    simpl. rewrite Hf. apply list_lookup_insert_eq. eapply lookup_lt_Some; eauto.
  - destruct (abandon cl fs !! fut) as [x|] eqn:Hx.
    + apply abandon_lookup in Hx as Hx'. rewrite Hf in Hx'.
      destruct Hx' as [[= <-]|[_ ->]].
      * apply IH; assumption.
      * apply (abandon_all_ready q); [exact Hx|discriminate].
    + apply lookup_ge_None in Hx. rewrite abandon_length in Hx.
      apply lookup_lt_Some in Hf. lia.
Qed.

Lemma step_alive s a e s' : step s a = Some (e, s') -> destroyed s = false.
Proof. unfold step. destruct (destroyed s); [discriminate|reflexivity]. Qed.

Lemma fifo_inv_init tc m : fifo_inv [] (new_pool tc m).
Proof.
  repeat split; simpl; [constructor|]. intros cl H. inversion H.
Qed.

Lemma fifo_inv_step tr s a e s' :
  fifo_inv tr s -> step s a = Some (e, s') -> fifo_inv (tr ++ [e]) s'.
Proof.
  intros (Hq & Hnd & Hfut) H.
  unfold fifo_inv, enqueued, dequeued in *.
  rewrite !flat_map_app.
  step_cases H; simpl; rewrite ?app_nil_r.
  all: (split; [ | split]).
  all: try assumption.
  all: repeat match goal with
         | H : invoke _ _ = _ |- _ => apply invoke_length in H; try rewrite H
         end; try assumption.
  all: rewrite ?abandon_all_length; try assumption.
  all: try (rewrite Hq, app_assoc; reflexivity).
  - rewrite Hq, <- app_assoc. reflexivity.
  - apply NoDup_app. split; [assumption|]. split; [|apply NoDup_singleton].
    intros cl Hin ->%list_elem_of_singleton.
    destruct (Hfut _ Hin) as (fut & f' & [= <- <-] & Hlt). lia.
  - intros cl [Hin| ->%list_elem_of_singleton]%elem_of_app; rewrite length_app; simpl.
    + destruct (Hfut _ Hin) as (fut & f' & -> & Hlt). eexists _, _. split; [reflexivity|lia].
    + eexists _, _. split; [reflexivity|lia].
Qed.

Lemma fifo_inv_reach tc m tr s : reach (new_pool tc m) tr s -> fifo_inv tr s.
Proof.
  apply reach_inv; [apply fifo_inv_init|].
  intros; eapply fifo_inv_step; eauto.
Qed.

Lemma singleton_insert {A} (l : list A) i x y z :
  l !! i = Some x -> <[i := y]> l = [z] -> l = [x] /\ y = z.
Proof.
  destruct l as [|a [|b l]]; destruct i as [|[|i]]; simpl; intros H1 H2;
    try discriminate; split; congruence.
Qed.

Lemma notify_one_singleton pick l pc :
  notify_one wake_worker pick l = Some [pc] ->
  exists pc0, l = [pc0] /\ held_real pc0 = held_real pc.
Proof.
  unfold notify_one. intros H.
  destruct (l !! pick) as [x|] eqn:Hl.
  - destruct (wake_worker x) as [x'|] eqn:Hx.
    + injection H as H. destruct (singleton_insert _ _ _ _ _ Hl H) as [-> ->].
      apply wake_worker_inv in Hx as [-> ->]. eauto.
    + destruct (existsb _ _); [discriminate|]. injection H as ->. eauto.
  - destruct (existsb _ _); [discriminate|]. injection H as ->. eauto.
Qed.

Lemma notify_all_singleton l pc :
  notify_all wake_worker l = [pc] ->
  exists pc0, l = [pc0] /\ held_real pc0 = held_real pc.
Proof.
  destruct l as [|x [|y l]]; simpl; intros H; try discriminate.
  injection H as <-. exists x. split; [reflexivity|]. destruct x; reflexivity.
Qed.

Lemma single_inv_step tr s a e s' :
  fifo_inv tr s -> single_inv tr s -> step s a = Some (e, s') ->
  single_inv (tr ++ [e]) s'.
Proof.
  intros (Hq & _ & Hfut) Hone H.
  unfold single_inv, enqueued, dequeued, executed in *.
  rewrite !flat_map_app.
  step_cases H; simpl; rewrite ?app_nil_r; intros pc' Hpc'.
  all: try (apply Hone; assumption).
  all: try match goal with
         | H : notify_one wake_worker _ _ = Some _ |- _ =>
             rewrite Hpc' in H; apply notify_one_singleton in H as (? & ? & <-); auto
         end.
  all: try (apply notify_all_singleton in Hpc' as (? & ? & <-); auto).
  all: try match goal with
         | H : workers _ !! _ = Some _ |- _ =>
             destruct (singleton_insert _ _ _ _ _ H Hpc') as [Hw <-];
             specialize (Hone _ Hw); simpl in *
         end.
  all: try assumption.
  - destruct (Hfut c) as (fut & f & -> & _).
    { rewrite Hq. apply elem_of_app. right. left. }
    rewrite Hone, app_nil_r. reflexivity.
  - destruct res; simpl in *; rewrite ?app_nil_r in *; assumption.
  - destruct res; simpl in *; rewrite ?app_nil_r in *; assumption.
Qed.

Lemma single_inv_reach tc m tr s : reach (new_pool tc m) tr s -> single_inv tr s.
Proof.
  intros Hr. induction Hr as [|tr s a e s' Hr IH Hs].
  - intros pc Hpc. simpl in Hpc.
    destruct (Z.to_nat _) as [|[|n]]; simpl in Hpc; try discriminate.
    injection Hpc as <-. reflexivity.
  - eapply single_inv_step; eauto using fifo_inv_reach.
Qed.

(** ** Lists without duplicates split in one way only *)

Lemma NoDup_split_unique {A} (l1 l2 l1' l2' : list A) x :
  NoDup (l1 ++ x :: l2) -> l1 ++ x :: l2 = l1' ++ x :: l2' -> l1 = l1' /\ l2 = l2'.
Proof.
  revert l1'. induction l1 as [|a l1 IH]; intros [|a' l1'] Hnd Heq; simpl in *.
  - injection Heq as <-. auto.
  - injection Heq as <- ->. apply NoDup_cons in Hnd as [Hnin _].
    exfalso. apply Hnin. apply elem_of_app. right. left.
  - injection Heq as -> <-. apply NoDup_cons in Hnd as [Hnin _].
    exfalso. apply Hnin. apply elem_of_app. right. left.
  - injection Heq as <- Heq. apply NoDup_cons in Hnd as [_ Hnd].
    destruct (IH _ Hnd Heq) as [-> ->]. auto.
Qed.

Lemma precedes_prefix {A} (x y : A) (l1 l2 : list A) :
  NoDup (l1 ++ l2) -> precedes x y (l1 ++ l2) -> y ∈ l1 -> precedes x y l1.
Proof.
  intros Hnd (a & b & c & Heq) (p & q & ->)%list_elem_of_split.
  assert (Heq' : (a ++ x :: b) ++ y :: c = p ++ y :: (q ++ l2)).
  { rewrite <- (app_assoc a). simpl. rewrite <- Heq, <- app_assoc. reflexivity. }
  apply NoDup_split_unique in Heq' as [<- _].
  - exists a, b, q. rewrite <- !app_assoc. reflexivity.
  - rewrite <- (app_assoc a). simpl. rewrite <- Heq. exact Hnd.
Qed.

(** ** Joining the workers *)

Lemma notify_one_lookup {A} (wake : A -> option A) pick (l l' : list A) j y :
  notify_one wake pick l = Some l' -> l' !! j = Some y ->
  l !! j = Some y \/ exists x, l !! j = Some x /\ wake x = Some y.
Proof.
  unfold notify_one. intros H Hj.
  destruct (l !! pick) as [x|] eqn:Hl.
  - destruct (wake x) as [x'|] eqn:Hx.
    + injection H as <-. apply lookup_insert_cases in Hj as [[<- <-]|[_ Hj]]; eauto.
    + destruct (existsb _ _); [discriminate|]. injection H as <-. auto.
  - destruct (existsb _ _); [discriminate|]. injection H as <-. auto.
Qed.

Lemma notify_all_lookup {A} (wake : A -> option A) (l : list A) j y :
  notify_all wake l !! j = Some y ->
  l !! j = Some y \/ exists x, l !! j = Some x /\ wake x = Some y.
Proof.
  unfold notify_all. rewrite list_lookup_fmap.
  destruct (l !! j) as [x|]; simpl; [|discriminate].
  destruct (wake x) eqn:Hx; intros [= <-]; eauto.
Qed.

Lemma notify_one_lookup_rev {A} (wake : A -> option A) pick (l l' : list A) j x :
  notify_one wake pick l = Some l' -> l !! j = Some x ->
  l' !! j = Some x \/ exists y, l' !! j = Some y /\ wake x = Some y.
Proof.
  unfold notify_one. intros H Hj.
  destruct (l !! pick) as [z|] eqn:Hl.
  - destruct (wake z) as [z'|] eqn:Hz.
    + injection H as <-. destruct (decide (pick = j)) as [->|Hne].
      * right. exists z'. rewrite list_lookup_insert_eq by eauto using lookup_lt_Some.
        split; congruence.
      * left. rewrite list_lookup_insert_ne; assumption.
    + destruct (existsb _ _); [discriminate|]. injection H as <-. auto.
  - destruct (existsb _ _); [discriminate|]. injection H as <-. auto.
Qed.

Lemma notify_all_lookup_rev {A} (wake : A -> option A) (l : list A) j x :
  l !! j = Some x ->
  notify_all wake l !! j = Some x \/ exists y, notify_all wake l !! j = Some y /\ wake x = Some y.
Proof.
  intros Hj. unfold notify_all. rewrite list_lookup_fmap, Hj. simpl.
  destruct (wake x) eqn:Hx; eauto.
Qed.

Lemma Forall_notify_one {A} (P : A -> Prop) (wake : A -> option A) pick (l l' : list A) :
  (forall x x', wake x = Some x' -> P x -> P x') ->
  notify_one wake pick l = Some l' -> Forall P l -> Forall P l'.
Proof.
  intros Hw Hn Hl. apply Forall_lookup. intros j y Hj.
  destruct (notify_one_lookup _ _ _ _ _ _ Hn Hj) as [H|(x & H & Hx)].
  - eapply Forall_lookup_1; eauto.
  - eapply Hw; eauto. eapply Forall_lookup_1; eauto.
Qed.

Lemma is_exited_insert (ws : list wpc) w pc pc' i :
  ws !! w = Some pc -> is_exited (Some pc) = false ->
  is_exited (ws !! i) = true -> is_exited (<[w := pc']> ws !! i) = true.
Proof.
  intros Hw Hpc Hi. destruct (decide (w = i)) as [->|Hne].
  - rewrite Hw in Hi. congruence.
  - rewrite list_lookup_insert_ne; assumption.
Qed.

Lemma is_exited_notify_one pick (ws ws' : list wpc) i :
  notify_one wake_worker pick ws = Some ws' ->
  is_exited (ws !! i) = true -> is_exited (ws' !! i) = true.
Proof.
  intros Hn Hi. destruct (ws !! i) as [x|] eqn:Hx; [|discriminate].
  destruct (notify_one_lookup_rev _ _ _ _ _ _ Hn Hx) as [->|(y & -> & Hy)]; [assumption|].
  apply wake_worker_inv in Hy as [-> ->]. discriminate.
Qed.

Lemma is_exited_notify_all (ws : list wpc) i :
  is_exited (ws !! i) = true -> is_exited (notify_all wake_worker ws !! i) = true.
Proof.
  intros Hi. destruct (ws !! i) as [x|] eqn:Hx; [|discriminate].
  destruct (notify_all_lookup_rev wake_worker _ _ _ Hx) as [->|(y & -> & Hy)]; [assumption|].
  apply wake_worker_inv in Hy as [-> ->]. discriminate.
Qed.

Lemma joined_below_insert ts i j : joined_below ts j -> joined_below (<[i := false]> ts) j.
Proof.
  intros H k b Hk [[<- <-]|[_ Hl]]%lookup_insert_cases; eauto.
Qed.

Lemma all_joined_insert ts i : all_joined ts -> all_joined (<[i := false]> ts).
Proof.
  intros H k b [[<- <-]|[_ Hl]]%lookup_insert_cases; eauto.
Qed.

Lemma join_pc_inv_insert ts i pc : join_pc_inv ts pc -> join_pc_inv (<[i := false]> ts) pc.
Proof.
  destruct pc; simpl; auto using joined_below_insert, all_joined_insert.
Qed.

Lemma joined_below_S ts i : joined_below ts i -> ts !! i = Some false -> joined_below ts (S i).
Proof.
  intros H Hi j b Hj Hl. destruct (decide (j = i)) as [->|Hne]; [congruence|].
  apply (H j b); [lia|assumption].
Qed.

Lemma joined_below_all ts i : joined_below ts i -> ts !! i = None -> all_joined ts.
Proof.
  intros H Hi j b Hl. apply (H j b); [|assumption].
  apply lookup_ge_None in Hi. apply lookup_lt_Some in Hl. lia.
Qed.

Lemma join_inv_init tc m : join_inv (new_pool tc m).
Proof.
  unfold join_inv, new_pool; simpl. rewrite !length_replicate.
  split; [reflexivity|]. split; [|split; [discriminate|]].
  - intros i [H _]%lookup_replicate. discriminate.
  - apply Forall_replicate. exact I.
Qed.

Lemma join_inv_step s a e s' :
  join_inv s -> step s a = Some (e, s') -> join_inv s'.
Proof.
  intros (Hlen & Hex & Hfin & Hcl) H.
  pose proof (step_length _ _ _ _ H) as (Hl1 & Hl2 & _).
  unfold join_inv. split; [congruence|]. clear Hl1 Hl2.
  step_cases H; simpl.
  all: (split; [|split]).
  all: try assumption.
  all: try (apply Forall_insert; [assumption|exact I]).
  all: try (intros i Hi; eapply is_exited_insert; eauto; fail).
  all: try (intros Hf; apply Hfin; congruence).
  all: try match goal with
         | H : clients _ !! _ = Some _ |- _ =>
             pose proof (Forall_lookup_1 _ _ _ _ Hcl H) as Hpc; simpl in Hpc
         end.
  all: try (apply Forall_insert; [assumption|]; simpl;
            first [ exact I
                  | assumption
                  | apply Hfin; reflexivity
                  | intros j b Hj; lia
                  | apply joined_below_S; assumption
                  | eapply joined_below_all; eassumption ]).
  all: try (eapply Forall_notify_one; [|eassumption|assumption];
            intros ? ? (k & -> & ->)%wake_client_inv; auto).
  all: try (intros i' Hi'; eauto using is_exited_notify_one, is_exited_notify_all; fail).
  all: try (intros Hf; apply all_joined_insert; auto).
  all: try (intros _; assumption).
  all: try (apply Forall_insert;
            [eapply Forall_impl; [eassumption|intros; apply join_pc_inv_insert; assumption]|];
            simpl; apply joined_below_S;
            [apply joined_below_insert; assumption
            |apply list_lookup_insert_eq; eauto using lookup_lt_Some]).
  all: try (intros i' [[<- _]|[_ Hi']]%lookup_insert_cases; [|auto];
            match goal with H : is_exited _ = true |- _ => exact H end).
Qed.

Lemma join_inv_reach tc m tr s : reach (new_pool tc m) tr s -> join_inv s.
Proof.
  intros Hr. induction Hr; [apply join_inv_init|eapply join_inv_step; eauto].
Qed.

(** ** Draining before the flag is set *)

Lemma idle_seen_snoc c tr e : idle_seen c (tr ++ [e]) = idle_upd c (idle_seen c tr) e.
Proof. unfold idle_seen. rewrite fold_left_app. reflexivity. Qed.

Lemma drain_inv_init tc m : drain_inv [] (new_pool tc m).
Proof.
  intros c pc [-> _]%lookup_replicate. discriminate.
Qed.

Lemma drain_inv_step tr s a e s' :
  drain_inv tr s -> step s a = Some (e, s') -> drain_inv (tr ++ [e]) s'.
Proof.
  intros Hd H c0 pc0. rewrite idle_seen_snoc.
  step_cases H; simpl.
  all: try (apply Hd; fail).
  all: try (intros [[<- <-]|[Hne Hl]]%lookup_insert_cases Hpc0; simpl in *;
            rewrite ?Nat.eqb_refl;
            try discriminate; try reflexivity;
            try (apply Nat.eqb_neq in Hne; rewrite Nat.eqb_sym in Hne; rewrite ?Hne);
            eauto; fail).
  intros Hl Hpc0.
  destruct (notify_one_lookup _ _ _ _ _ _ Heqo0 Hl) as [Hc|(x & Hc & Hx)]; [eauto|].
  apply wake_client_inv in Hx as (k & -> & ->). discriminate.
Qed.

Lemma drain_inv_reach tc m tr s : reach (new_pool tc m) tr s -> drain_inv tr s.
Proof.
  apply reach_inv; [apply drain_inv_init|].
  intros; eapply drain_inv_step; eauto.
Qed.

(** [WaitAll] reports idleness only when it read a counter that is not
    positive. *)
Lemma idle_event s a c s' : step s a = Some (EvIdle c, s') -> jobs_left s <= 0.
Proof.
  intros H. unfold step in H. destruct (destroyed s); [discriminate|].
  destruct a as [[w|c'] pick|c' o|[w|c']].
  - unfold worker_step, Task, next_job in H. break_step H; discriminate.
  - unfold client_step, AddJob, WaitAll, JoinAll, destroy_members in H.
    break_step H; try discriminate.
    + match goal with H : (0 <? _) = false |- _ => apply Z.ltb_ge in H; exact H end.
    + match goal with H : (_ =? 0) = true |- _ => apply Z.eqb_eq in H; lia end.
    + destruct k; discriminate.
  - break_step H; discriminate.
  - break_step H; discriminate.
  - break_step H; discriminate.
Qed.

(** The two flags are never cleared. *)
Lemma step_flags s a e s' :
  step s a = Some (e, s') ->
  (bailout s = true -> bailout s' = true) /\ (finished s = true -> finished s' = true).
Proof.
  intros H. step_cases H; simpl; split; intros; first [assumption|reflexivity|congruence].
Qed.

(** ** Packaged tasks run once *)

Lemma pending_inv_init tc m : pending_inv (new_pool tc m).
Proof.
  unfold pending_inv, new_pool; simpl.
  rewrite !count_replicate_false by reflexivity.
  split; [reflexivity|]. intros fut.
  rewrite !count_replicate_false by reflexivity. split; lia.
Qed.

Lemma pending_inv_step s a e s' :
  pending_inv s -> step s a = Some (e, s') -> pending_inv s'.
Proof.
  intros (Ht & Hp) H. unfold pending_inv.
  pose proof (step_alive _ _ _ _ H) as Hds.
  assert (Hp' : forall fut,
             count (is_fut fut) (queue s) + count (holds_fut fut) (workers s) <= 1 /\
             (1 <= count (is_fut fut) (queue s) + count (holds_fut fut) (workers s) ->
              futures s !! fut = Some Pending)).
  { intros fut. destruct (Hp fut) as [Hle Hpend]. split; [exact Hle|exact (Hpend Hds)]. }
  clear Hp. rename Hp' into Hp.
  step_cases H; simpl.
  all: try (split; [count_norm; simpl; lia|]).
  all: try (let x := fresh "fut" in
            intros x; specialize (Hp x); count_norm; simpl in *;
            split; [lia|intros; first [discriminate|apply Hp; lia]]).
  - (* 44: the closure is called, and it is a task that has not run yet *)
    destruct res as [fut0 f|]; simpl in *.
    + destruct (Hp fut0) as [_ Hpend].
      pose proof (count_pos (holds_fut fut0) _ _ _ Heqo) as Hpos.
      simpl in Hpos. rewrite Nat.eqb_refl in Hpos. specialize (Hpos eq_refl).
      pose proof (count_nonneg (is_fut fut0) (queue s)).
      rewrite Hpend in Heqp by lia. discriminate.
    + discriminate.
  - destruct res as [fut0 f|]; simpl in *.
    + destruct (Hp fut0) as [Hle0 Hpend].
      pose proof (count_pos (holds_fut fut0) _ _ _ Heqo) as Hpos.
      simpl in Hpos. rewrite Nat.eqb_refl in Hpos. specialize (Hpos eq_refl).
      pose proof (count_nonneg (is_fut fut0) (queue s)).
      rewrite Hpend in Heqp by lia. injection Heqp as <-.
      intros fut. specialize (Hp fut). count_norm. simpl.
      destruct (Nat.eqb_spec fut fut0) as [->|Hne]; simpl.
      * split; [lia|]. intros; lia.
      * rewrite list_lookup_insert_ne by congruence.
        split; [lia|]. intros; apply Hp; lia.
    + injection Heqp as <-.
      intros fut. specialize (Hp fut). count_norm. simpl.
      split; [lia|]. intros; apply Hp; lia.
  - (* 123: a new task enters the queue *)
    intros fut. specialize (Hp fut). rewrite count_app. simpl.
    destruct (Nat.eqb_spec fut (length (futures s))) as [->|Hne]; simpl.
    + assert (count (is_fut (length (futures s))) (queue s)
              + count (holds_fut (length (futures s))) (workers s) = 0) as Hz.
      { pose proof (count_nonneg (is_fut (length (futures s))) (queue s)).
        pose proof (count_nonneg (holds_fut (length (futures s))) (workers s)).
        destruct Hp as [Hle Hpend].
        destruct (Z.eq_dec (count (is_fut (length (futures s))) (queue s)
              + count (holds_fut (length (futures s))) (workers s)) 0) as [|Hnz]; [assumption|].
        assert (futures s !! length (futures s) = Some Pending) as Hl by (apply Hpend; lia).
        apply lookup_lt_Some in Hl. lia. }
      split; [lia|]. intros _ _. apply list_lookup_middle. reflexivity.
    + split; [lia|]. intros _ Hge. apply lookup_app_l_Some. apply Hp. lia.
Qed.

Lemma pending_inv_reach tc m tr s : reach (new_pool tc m) tr s -> pending_inv s.
Proof.
  intros Hr. induction Hr; [apply pending_inv_init|eapply pending_inv_step; eauto].
Qed.

(** ** [front()] is called on a queue that is not empty *)

Lemma count_pos2 {A} (p : A -> bool) (l : list A) i j x y :
  i <> j -> l !! i = Some x -> l !! j = Some y -> p x = true -> p y = true ->
  2 <= count p l.
Proof.
  revert i j. induction l as [|z l IH]; intros [|i] [|j] Hne Hi Hj Hx Hy;
    simpl in *; try discriminate; try congruence.
  - injection Hi as ->. rewrite Hx. pose proof (count_pos p _ _ _ Hj Hy). simpl. lia.
  - injection Hj as ->. rewrite Hy. pose proof (count_pos p _ _ _ Hi Hx). simpl. lia.
  - pose proof (IH i j ltac:(congruence) Hi Hj Hx Hy). pose proof (b2z_range (p z)). lia.
Qed.

Lemma branch_inv_init tc m : branch_inv (new_pool tc m).
Proof. intros w [H _]%lookup_replicate. discriminate. Qed.

Lemma branch_inv_step tr s a e s' :
  counter_inv tr s -> branch_inv s -> step s a = Some (e, s') -> branch_inv s'.
Proof.
  intros (_ & _ & Hm & _) Hb H w0.
  pose proof (count_nonneg in_queue_cs_c (clients s)) as Hc0.
  pose proof (b2z_range (queue_mutex s)) as Hr.
  step_cases H; simpl.
  all: try (intros [[<- [=]]|[Hne Hw0]]%lookup_insert_cases).
  all: try (intros Hw0).
  all: try match goal with
         | H : notify_one wake_worker _ _ = Some _ |- _ =>
             destruct (notify_one_lookup _ _ _ _ _ _ H Hw0)
               as [Hw0'|(x & _ & [_ [=]]%wake_worker_inv)]; clear Hw0; rename Hw0' into Hw0
         end.
  all: try match goal with
         | H : notify_all wake_worker _ !! _ = Some _ |- _ =>
             destruct (notify_all_lookup _ _ _ _ H)
               as [Hw0'|(x & _ & [_ [=]]%wake_worker_inv)]; clear H; rename Hw0' into Hw0
         end.
  all: try (left; reflexivity).
  all: try (apply Hb in Hw0; destruct Hw0 as [Hw0|Hw0]; [left; congruence|right; assumption]).
  - apply orb_true_iff in Heqb0 as [Hn|Hn]; [right|left; exact Hn].
    destruct (queue s); [discriminate|congruence].
  - (* two workers at line 64 would both hold the mutex *)
    pose proof (count_pos2 in_queue_cs_w _ _ _ _ _ Hne Heqo Hw0 eq_refl eq_refl). lia.
  - right. destruct (queue s); discriminate.
Qed.

Lemma branch_inv_reach tc m tr s : reach (new_pool tc m) tr s -> branch_inv s.
Proof.
  intros Hr. induction Hr as [|tr s a e s' Hr IH Hs]; [apply branch_inv_init|].
  eapply branch_inv_step; eauto using counter_inv_reach.
Qed.

(** X7: a worker is never stuck at line 64: it either makes up the no-op
    job or takes the head of the queue, which is not empty then, so that
    [front()] is never called on an empty list. *)
Lemma front_defined tc m tr s w pick :
  reach (new_pool tc m) tr s -> destroyed s = false ->
  workers s !! w = Some NjBranch ->
  exists e s', step s (Run (W w) pick) = Some (e, s').
Proof.
  intros Hr Hd Hw. unfold step, worker_step. rewrite Hd, Hw. simpl.
  destruct (bailout s) eqn:Hb; [eauto|].
  destruct (branch_inv_reach _ _ _ _ Hr _ Hw) as [Hb'|Hq]; [congruence|].
  destruct (queue s); [congruence|eauto].
Qed.


(** ** The end of the pool *)

Lemma joined_all_exited s :
  join_inv s -> all_joined (threads s) -> all_exited (workers s).
Proof.
  intros (Hlen & Hex & _ & _) Hj. apply Forall_lookup. intros i pc Hi.
  destruct (threads s !! i) as [b|] eqn:Ht.
  - rewrite (Hj _ _ Ht) in Ht. specialize (Hex _ Ht). rewrite Hi in Hex. exact Hex.
  - apply lookup_ge_None in Ht. apply lookup_lt_Some in Hi. lia.
Qed.

Lemma all_exited_lookup ws w pc :
  all_exited ws -> ws !! w = Some pc -> is_exited (Some pc) = true.
Proof. intros H Hw. exact (Forall_lookup_1 _ _ _ _ H Hw). Qed.

Lemma no_joinable ts : existsb (fun j : bool => j) ts = false <-> all_joined ts.
Proof.
  split.
  - intros H. induction ts as [|b ts IH]; intros j b' Hj; [discriminate|].
    simpl in H. apply orb_false_iff in H as [-> H].
    destruct j as [|j]; simpl in Hj; [congruence|]. exact (IH H j b' Hj).
  - intros Hj. induction ts as [|b ts IH]; [reflexivity|].
    simpl. rewrite (Hj 0%nat b eq_refl). simpl. apply IH.
    intros j b' Hl. exact (Hj (S j) b' Hl).
Qed.

(** The only step that ends the pool is the destruction of its members,
    which finds every thread joined, and breaks the promises of the tasks
    that are still queued. *)
Lemma step_destroyed s a e s' :
  step s a = Some (e, s') -> destroyed s' = true ->
  all_joined (threads s) /\ workers s' = workers s /\ queue s' = queue s /\
  futures s' = abandon_all (queue s) (futures s) /\ exists c, e = EvDestroyed c.
Proof.
  intros H Hd. step_cases H; simpl in *; try congruence.
  repeat split; eauto.
  match goal with H : existsb _ _ = false |- _ => apply no_joinable in H; exact H end.
Qed.

Lemma step_not_destroyed s a e s' :
  step s a = Some (e, s') -> destroyed s' = false ->
  forall c, e <> EvDestroyed c.
Proof.
  intros H Hd. step_cases H; simpl in *; try congruence; intros c0; discriminate.
Qed.

Lemma destroyed_all_exited tc m tr s :
  reach (new_pool tc m) tr s -> destroyed s = true -> all_exited (workers s).
Proof.
  intros Hr Hd. destruct Hr as [|tr s a e s' Hr Hs]; [discriminate|].
  destruct (step_destroyed _ _ _ _ Hs Hd) as (Hj & Hw & _).
  rewrite Hw. apply joined_all_exited; [exact (join_inv_reach _ _ _ _ Hr)|exact Hj].
Qed.

(** A destroyed pool was reached by that step. *)
Lemma reach_destroyed s tr s' :
  reach s tr s' -> destroyed s = false -> destroyed s' = true ->
  exists tr1 s1 a e,
    reach s tr1 s1 /\ destroyed s1 = false /\ step s1 a = Some (e, s') /\
    tr = tr1 ++ [e].
Proof.
  intros Hr Hd Hd'. destruct Hr as [|tr s1 a e s' Hr Hs]; [congruence|].
  exists tr, s1, a, e. split; [exact Hr|]. split; [exact (step_alive _ _ _ _ Hs)|].
  split; [exact Hs|reflexivity].
Qed.

(** * The claims *)

(** ** Construction *)

(** C2 (counterexample): a thread count of zero is accepted; the constructor
    returns a pool without workers whose [Size] is 0. *)
Lemma zero_threads_constructs :
  ThreadPool 0 1 = inr (new_pool 0 1) /\
  Size (new_pool 0 1) = 0 /\ workers (new_pool 0 1) = [].
Proof. repeat split; reflexivity. Qed.

(** C2 (amended): for an [int] argument, the constructor fails exactly on the
    negative counts, with the [std::length_error] of [vector::resize]; a
    count of zero or more yields a pool with that many workers, whose [Size]
    is the count. *)
Theorem constructor_size (tc : Z) (m : nat) :
  - 2 ^ 31 <= tc <= INT_MAX ->
  (tc < 0 -> ThreadPool tc m = inl length_error) /\
  (0 <= tc ->
   ThreadPool tc m = inr (new_pool tc m) /\
   Size (new_pool tc m) = tc /\
   length (workers (new_pool tc m)) = Z.to_nat tc /\
   length (threads (new_pool tc m)) = Z.to_nat tc).
Proof.
  unfold INT_MAX. intros Hr.
  assert (Hmax : vector_max_size = 1152921504606846975) by reflexivity.
  split; intros Hs.
  - unfold ThreadPool, to_size_t.
    replace (tc mod 2 ^ 64) with (tc + 2 ^ 64).
    + rewrite Hmax. destruct (Z.ltb_spec 1152921504606846975 (tc + 2 ^ 64)); [reflexivity|lia].
    + apply Z.mod_unique with (q := -1); lia.
  - unfold ThreadPool, Size, to_size_t, to_unsigned; simpl.
    rewrite !length_replicate. unfold to_unsigned.
    rewrite !Z.mod_small by lia. rewrite Hmax.
    destruct (Z.ltb_spec 1152921504606846975 tc); [lia|]. auto.
Qed.

Lemma constructor_size_witness :
  ThreadPool 4 1 = inr (new_pool 4 1) /\ Size (new_pool 4 1) = 4 /\
  ThreadPool (-1) 1 = inl length_error.
Proof.
  assert (Hr4 : - 2 ^ 31 <= 4 <= INT_MAX) by (unfold INT_MAX; lia).
  assert (Hr1 : - 2 ^ 31 <= -1 <= INT_MAX) by (unfold INT_MAX; lia).
  destruct (constructor_size 4 1 Hr4) as [_ H4].
  destruct (constructor_size (-1) 1 Hr1) as [H1 _].
  destruct H4 as (Hc & Hs & _); [lia|].
  split; [exact Hc|]. split; [exact Hs|]. apply H1. lia.
Defined.

(** ** Shutdown twice *)

Lemma set_client_restore s c pc pc' :
  clients s !! c = Some pc -> set_client c pc (set_client c pc' s) = s.
Proof.
  intros H. destruct s; unfold set_client, set_clients; simpl in *.
  f_equal. rewrite list_insert_insert_eq. apply list_insert_id. exact H.
Qed.

Lemma client_lookup_set s c pc pc' :
  clients s !! c = Some pc -> clients (set_client c pc' s) !! c = Some pc'.
Proof.
  intros H. simpl. apply list_lookup_insert_eq. eapply lookup_lt_Some; eauto.
Qed.

(** C6: on a pool whose [finished] flag is set, [JoinAll] with either
    argument reads the flag and returns; it joins nothing and leaves the
    whole state as it was. *)
Theorem join_all_idempotent s c b pick :
  finished s = true -> destroyed s = false -> clients s !! c = Some Idle ->
  run s [Call c (OpJoinAll b); Run (C c) pick]
  = Some ([EvCall c (OpJoinAll b); EvReturn c], s).
Proof.
  intros Hf Hd Hc. simpl. unfold step. rewrite Hd, Hc. simpl.
  unfold client_step. rewrite (client_lookup_set _ _ _ _ Hc). simpl. rewrite Hf.
  rewrite (set_client_restore _ _ _ _ Hc), Hd. reflexivity.
Qed.

(** A finished pool to call [JoinAll] on: one worker, one caller, after
    [JoinAll(false)]. *)
Lemma join_all_idempotent_witness :
  run (snd stopped_pool) [Call 0 (OpJoinAll true); Run (C 0) 0]
  = Some ([EvCall 0 (OpJoinAll true); EvReturn 0], snd stopped_pool).
Proof.
  apply (join_all_idempotent (snd stopped_pool) 0 true 0); reflexivity.
Defined.

(** ** The no-op job of a terminating pool *)



(** ** Jobs that throw *)

Lemma notify_one_wakes {A} (wake : A -> option A) c (l : list A) x x' :
  l !! c = Some x -> wake x = Some x' -> notify_one wake c l = Some (<[c := x']> l).
Proof. intros Hl Hx. unfold notify_one. rewrite Hl, Hx. reflexivity. Qed.

Lemma notify_one_nobody {A} (wake : A -> option A) pick (l : list A) :
  (forall c x, l !! c = Some x -> wake x = None) -> notify_one wake pick l = Some l.
Proof.
  intros H.
  assert (Hno : existsb (asleep wake) l = false).
  { clear pick. induction l as [|x l IH]; simpl; [reflexivity|].
    unfold asleep at 1. rewrite (H 0%nat x eq_refl). simpl.
    apply IH. intros c y Hc. exact (H (S c) y Hc). }
  unfold notify_one. destruct (l !! pick) as [x|] eqn:Hl.
  - rewrite (H _ _ Hl), Hno. reflexivity.
  - rewrite Hno. reflexivity.
Qed.

Lemma nobody_asleep (cs : list cpc) :
  (forall c k, cs !! c <> Some (WaWaiting k)) ->
  forall c x, cs !! c = Some x -> wake_client x = None.
Proof.
  intros H c x Hc. destruct x; try reflexivity. exfalso. exact (H _ _ Hc).
Qed.

(** A worker that holds a closure has a job outstanding. *)
Lemma holding_outstanding tc m tr s w pc :
  reach (new_pool tc m) tr s ->
  workers s !! w = Some pc -> holding pc = true -> 1 <= outstanding tr.
Proof.
  intros Hr Hw Hpc.
  pose proof (counter_inv_reach _ _ _ _ Hr) as (_ & Hc & _ & Hle).
  pose proof (count_pos holding _ _ _ Hw Hpc). lia.
Qed.

Lemma worker_alive tc m tr s w pc :
  reach (new_pool tc m) tr s ->
  workers s !! w = Some pc -> is_exited (Some pc) = false -> destroyed s = false.
Proof.
  intros Hr Hw Hpc. destruct (destroyed s) eqn:Hd; [|reflexivity].
  pose proof (destroyed_all_exited _ _ _ _ Hr Hd) as Hex.
  rewrite (all_exited_lookup _ _ _ Hex Hw) in Hpc. discriminate.
Qed.

(** Line 46, in whatever state the worker executes it: the counter is one
    less afterwards, and it was positive. *)
Lemma task_dec_step tc m tr s w pick :
  reach (new_pool tc m) tr s ->
  workers s !! w = Some TaskDec -> outstanding tr <= INT_MAX ->
  1 <= jobs_left s /\
  step s (Run (W w) pick)
  = Some (EvFinished w,
          set_worker w TaskNotify (set_jobs_left (jobs_left s - 1) s)).
Proof.
  intros Hr Hw Hmax.
  pose proof (holding_outstanding _ _ _ _ _ _ Hr Hw eq_refl) as H1.
  pose proof (counter_inv_reach _ _ _ _ Hr) as (Hj & _).
  rewrite wrap_int_small in Hj by (unfold INT_MAX in *; lia).
  split; [lia|].
  unfold step, worker_step. rewrite (worker_alive _ _ _ _ _ _ Hr Hw eq_refl), Hw.
  simpl. unfold decr. rewrite wrap_int_small by (unfold INT_MAX in *; lia).
  reflexivity.
Qed.

(** Line 47, in whatever state the worker executes it: a thread that sleeps
    in [WaitAll] is woken, and without such a thread nothing happens. *)
Lemma task_notify_step tc m tr s w :
  reach (new_pool tc m) tr s ->
  workers s !! w = Some TaskNotify ->
  (forall c k, clients s !! c = Some (WaWaiting k) ->
     step s (Run (W w) c)
     = Some (EvTau, set_worker w TaskLoop (set_client c (WaLock k) s))) /\
  ((forall c k, clients s !! c <> Some (WaWaiting k)) ->
   forall pick,
     step s (Run (W w) pick) = Some (EvTau, set_worker w TaskLoop s)).
Proof.
  intros Hr Hw.
  unfold step, worker_step. rewrite (worker_alive _ _ _ _ _ _ Hr Hw eq_refl), Hw.
  simpl. split.
  - intros c k Hc.
    rewrite (notify_one_wakes wake_client c _ _ (WaLock k) Hc eq_refl). reflexivity.
  - intros Hno pick.
    rewrite (notify_one_nobody wake_client pick _ (nobody_asleep _ Hno)).
    destruct s; reflexivity.
Qed.

Lemma outstanding_run tr w cl : outstanding (tr ++ [EvRun w cl]) = outstanding tr.
Proof.
  unfold outstanding, accepted, injected, completed. rewrite !count_snoc. simpl. lia.
Qed.

Lemma outstanding_finished tr w :
  outstanding (tr ++ [EvFinished w]) = outstanding tr - 1.
Proof.
  unfold outstanding, accepted, injected, completed. rewrite !count_snoc. simpl. lia.
Qed.

(** C8: when a worker calls a packaged task, whether the callable returns or
    throws, the call stores the outcome in the future of that task and in no
    other, and nothing escapes: the worker goes on to line 46, never to
    [std::terminate].  The exception is what [get] on that future re-throws.
    Lines 46 and 47 follow as after any job: the counter, which is positive,
    is decremented by one, and a thread that sleeps in [WaitAll] is woken.
    When the worker executes the three lines in a row, the pool differs from
    the one before by the future of the task, the counter, and the thread
    that was woken: the outcome of the job occurs in the future only. *)
Theorem job_failure_captured tc m tr s w fut f :
  reach (new_pool tc m) tr s ->
  workers s !! w = Some (TaskRun (Packaged fut f)) ->
  outstanding tr <= INT_MAX ->
  (forall pick,
     step s (Run (W w) pick)
     = Some (EvRun w (Packaged fut f),
             set_worker w TaskDec (set_futures (<[fut := slot_of f]> (futures s)) s))) /\
  future_get (<[fut := slot_of f]> (futures s)) fut = Some (result_of f) /\
  (forall fut', fut' <> fut ->
     future_get (<[fut := slot_of f]> (futures s)) fut' = future_get (futures s) fut') /\
  count is_terminated (workers s) = 0 /\
  (forall tr1 s1 pick,
     reach (new_pool tc m) tr1 s1 ->
     workers s1 !! w = Some TaskDec -> outstanding tr1 <= INT_MAX ->
     1 <= jobs_left s1 /\
     step s1 (Run (W w) pick)
     = Some (EvFinished w,
             set_worker w TaskNotify (set_jobs_left (jobs_left s1 - 1) s1))) /\
  (forall tr1 s1 c k,
     reach (new_pool tc m) tr1 s1 ->
     workers s1 !! w = Some TaskNotify -> clients s1 !! c = Some (WaWaiting k) ->
     step s1 (Run (W w) c)
     = Some (EvTau, set_worker w TaskLoop (set_client c (WaLock k) s1))) /\
  (forall tr1 s1 pick,
     reach (new_pool tc m) tr1 s1 ->
     workers s1 !! w = Some TaskNotify ->
     (forall c k, clients s1 !! c <> Some (WaWaiting k)) ->
     step s1 (Run (W w) pick) = Some (EvTau, set_worker w TaskLoop s1)) /\
  (forall c k, clients s !! c = Some (WaWaiting k) ->
     exists s3,
       run s [Run (W w) c; Run (W w) c; Run (W w) c]
       = Some ([EvRun w (Packaged fut f); EvFinished w; EvTau], s3) /\
       job_accounted w s s3 /\
       futures s3 = <[fut := slot_of f]> (futures s) /\
       clients s3 = <[c := WaLock k]> (clients s)) /\
  ((forall c k, clients s !! c <> Some (WaWaiting k)) ->
   forall pick,
     exists s3,
       run s [Run (W w) pick; Run (W w) pick; Run (W w) pick]
       = Some ([EvRun w (Packaged fut f); EvFinished w; EvTau], s3) /\
       job_accounted w s s3 /\
       futures s3 = <[fut := slot_of f]> (futures s) /\
       clients s3 = clients s).
Proof.
  intros Hr Hw Hmax.
  pose proof (worker_alive _ _ _ _ _ _ Hr Hw eq_refl) as Hd.
  destruct (pending_inv_reach _ _ _ _ Hr) as [Hterm Hp].
  destruct (Hp fut) as [_ Hpend]. specialize (Hpend Hd).
  pose proof (count_pos (holds_fut fut) _ _ _ Hw) as Hpos.
  simpl in Hpos. rewrite Nat.eqb_refl in Hpos. specialize (Hpos eq_refl).
  pose proof (count_nonneg (is_fut fut) (queue s)) as Hq.
  assert (Hslot : futures s !! fut = Some Pending) by (apply Hpend; lia).
  pose proof (lookup_lt_Some _ _ _ Hw) as Hlt.
  assert (Hs1 : forall pick,
             step s (Run (W w) pick)
             = Some (EvRun w (Packaged fut f),
                     set_worker w TaskDec
                       (set_futures (<[fut := slot_of f]> (futures s)) s))).
  { intros pick. unfold step, worker_step. rewrite Hd, Hw. simpl. rewrite Hslot.
    reflexivity. }
  (* the states after line 44 and after line 46 *)
  set (s1 := set_worker w TaskDec (set_futures (<[fut := slot_of f]> (futures s)) s)).
  assert (Hr1 : reach (new_pool tc m) (tr ++ [EvRun w (Packaged fut f)]) s1)
    by exact (reach_step _ _ _ _ _ _ Hr (Hs1 0%nat)).
  assert (Hw1 : workers s1 !! w = Some TaskDec)
    by (simpl; apply list_lookup_insert_eq; exact Hlt).
  destruct (task_dec_step _ _ _ _ w 0%nat Hr1 Hw1) as [Hpos1 _];
    [rewrite outstanding_run; exact Hmax|].
  assert (Hs2 : forall pick,
             step s1 (Run (W w) pick)
             = Some (EvFinished w,
                     set_worker w TaskNotify (set_jobs_left (jobs_left s1 - 1) s1))).
  { intros pick. apply (task_dec_step _ _ _ _ w pick Hr1 Hw1).
    rewrite outstanding_run. exact Hmax. }
  set (s2 := set_worker w TaskNotify (set_jobs_left (jobs_left s1 - 1) s1)).
  assert (Hr2 : reach (new_pool tc m)
                  ((tr ++ [EvRun w (Packaged fut f)]) ++ [EvFinished w]) s2)
    by exact (reach_step _ _ _ _ _ _ Hr1 (Hs2 0%nat)).
  assert (Hw2 : workers s2 !! w = Some TaskNotify)
    by (simpl; apply list_lookup_insert_eq; rewrite length_insert; exact Hlt).
  destruct (task_notify_step _ _ _ _ w Hr2 Hw2) as [Hwake Hnone].
  split; [exact Hs1|]. split.
  { unfold future_get. rewrite list_lookup_insert_eq by (eapply lookup_lt_Some; eauto).
    destruct f; reflexivity. }
  split.
  { intros fut' Hne. unfold future_get.
    rewrite list_lookup_insert_ne by congruence. reflexivity. }
  split; [exact Hterm|]. split.
  { intros tr1 s1' pick Hr' Hw' Hmax'. exact (task_dec_step _ _ _ _ w pick Hr' Hw' Hmax'). }
  split.
  { intros tr1 s1' c k Hr' Hw' Hc'.
    exact (proj1 (task_notify_step _ _ _ _ w Hr' Hw') c k Hc'). }
  split.
  { intros tr1 s1' pick Hr' Hw' Hno.
    exact (proj2 (task_notify_step _ _ _ _ w Hr' Hw') Hno pick). }
  split.
  - intros c k Hc. eexists. split.
    + simpl. rewrite (Hs1 c). fold s1. rewrite (Hs2 c). fold s2.
      rewrite (Hwake c k Hc). reflexivity.
    + unfold job_accounted. simpl. rewrite !list_insert_insert_eq.
      repeat split; reflexivity.
  - intros Hno pick. eexists. split.
    + simpl. rewrite (Hs1 pick). fold s1. rewrite (Hs2 pick). fold s2.
      rewrite (Hnone Hno pick). reflexivity.
    + unfold job_accounted. simpl. rewrite !list_insert_insert_eq.
      repeat split; reflexivity.
Qed.

Lemma job_failure_captured_witness :
  exists s3,
    run (snd taken_pool) [Run (W 0) 0; Run (W 0) 0; Run (W 0) 0]
    = Some ([EvRun 0 (Packaged 0 (Throws (user_error 3))); EvFinished 0; EvTau], s3) /\
    jobs_left s3 = jobs_left (snd taken_pool) - 1 /\
    futures s3 = [Failed (user_error 3)].
Proof.
  destruct (job_failure_captured 1 1 (fst taken_pool) (snd taken_pool) 0 0
              (Throws (user_error 3))) as (_ & _ & _ & _ & _ & _ & _ & _ & H).
  - apply (run_reach sched_take). vm_compute. reflexivity.
  - reflexivity.
  - vm_compute. discriminate.
  - destruct (H ltac:(intros [|c] k Hc; vm_compute in Hc; discriminate Hc) 0%nat)
      as (s3 & Hrun & (_ & Hj & _) & Hf & _).
    exists s3. split; [exact Hrun|]. split; [exact Hj|]. rewrite Hf. reflexivity.
Defined.

(** ** After the shutdown *)

Lemma finished_all_exited s :
  join_inv s -> finished s = true -> all_exited (workers s).
Proof.
  intros (Hlen & Hex & Hfin & _) Hf. apply Forall_lookup. intros i pc Hi.
  destruct (threads s !! i) as [b|] eqn:Ht.
  - rewrite (Hfin Hf _ _ Ht) in Ht. specialize (Hex _ Ht). rewrite Hi in Hex. exact Hex.
  - apply lookup_ge_None in Ht. apply lookup_lt_Some in Hi. lia.
Qed.

Lemma notify_one_all_exited pick ws :
  all_exited ws -> notify_one wake_worker pick ws = Some ws.
Proof.
  intros H. unfold notify_one.
  assert (Hno : existsb (asleep wake_worker) ws = false).
  { induction H as [|pc ws Hpc _ IH]; simpl; [reflexivity|].
    rewrite IH. destruct pc; try discriminate; reflexivity. }
  rewrite Hno. destruct (ws !! pick) as [pc|] eqn:Hp; [|reflexivity].
  apply (all_exited_lookup _ _ _ H) in Hp. destruct pc; try discriminate; reflexivity.
Qed.

Lemma notify_all_all_exited ws : all_exited ws -> notify_all wake_worker ws = ws.
Proof.
  intros H. induction H as [|pc ws Hpc _ IH]; simpl; [reflexivity|].
  rewrite IH. destruct pc; try discriminate; reflexivity.
Qed.

(** Once all workers are over, no closure is executed any more, no future is
    fulfilled as long as the pool exists, and the queue only grows. *)
Lemma all_exited_step s a e s' :
  all_exited (workers s) -> step s a = Some (e, s') ->
  workers s' = workers s /\ is_run e = false /\
  (forall fut, futures s !! fut = Some Pending -> destroyed s' = false ->
     futures s' !! fut = Some Pending) /\
  (forall cl, cl ∈ queue s -> cl ∈ queue s').
Proof.
  intros Hex H.
  step_cases H; simpl.
  all: try match goal with
         | H : workers _ !! _ = Some _ |- _ =>
             apply (all_exited_lookup _ _ _ Hex) in H; discriminate H
         end.
  all: try match goal with
         | H : notify_one wake_worker _ _ = Some _ |- _ =>
             rewrite (notify_one_all_exited _ _ Hex) in H; injection H as <-
         end.
  all: rewrite ?(notify_all_all_exited _ Hex).
  all: repeat split; auto.
  all: try (intros; discriminate).
  - intros fut Hf _. apply lookup_app_l_Some. exact Hf.
  - intros cl Hcl. apply elem_of_app. auto.
Qed.

Lemma all_exited_reach s tr s' :
  all_exited (workers s) -> reach s tr s' ->
  workers s' = workers s /\ count is_run tr = 0 /\
  (forall fut, futures s !! fut = Some Pending -> destroyed s' = false ->
     futures s' !! fut = Some Pending) /\
  (forall cl, cl ∈ queue s -> cl ∈ queue s').
Proof.
  intros Hex Hr. induction Hr as [|tr s1 a e s2 Hr IH Hs].
  - auto.
  - destruct IH as (Hw & Hc & Hf & Hq).
    rewrite <- Hw in Hex.
    destruct (all_exited_step _ _ _ _ Hex Hs) as (Hw' & He & Hf' & Hq').
    rewrite count_snoc, He, Hc. simpl.
    split; [congruence|]. split; [reflexivity|]. split; [|auto].
    intros fut Hp Hd. apply Hf'; [|exact Hd].
    apply Hf; [exact Hp|]. exact (step_alive _ _ _ _ Hs).
Qed.

(** C1 (counterexample): on the pool that [JoinAll(false)] has stopped,
    [AddJob] returns a future as on a running pool, and its closure is in the
    queue. *)
Lemma add_job_after_join_all_accepted :
  finished (snd stopped_pool) = true /\
  run (snd stopped_pool) (sched_add_job 0 (Returns 7) 0)
  = Some ([EvCall 0 (OpAddJob (Returns 7)); EvTau;
           EvEnqueue 0 (Packaged 0 (Returns 7)); EvAccepted 0; EvTau;
           EvSubmitted 0 0], snd late_submit) /\
  queue (snd late_submit) = [Packaged 0 (Returns 7)] /\
  jobs_left (snd late_submit) = 1 /\
  clients (snd late_submit) = [Idle].
Proof. vm_compute. repeat split; reflexivity. Qed.

(** C1 (amended): on a pool whose [finished] flag is set, [AddJob] does not
    fail: it appends its closure to the queue, increments [jobs_left] and
    returns the future, as on a running pool.  No worker is left, so the
    callable is never executed. *)
Theorem add_job_after_join_all tc m tr s c f pick :
  reach (new_pool tc m) tr s ->
  finished s = true -> destroyed s = false -> queue_mutex s = false ->
  clients s !! c = Some Idle ->
  exists s',
    run s (sched_add_job c f pick)
    = Some ([EvCall c (OpAddJob f); EvTau;
             EvEnqueue c (Packaged (length (futures s)) f); EvAccepted c; EvTau;
             EvSubmitted c (length (futures s))], s') /\
    queue s' = queue s ++ [Packaged (length (futures s)) f] /\
    jobs_left s' = incr (jobs_left s) /\
    clients s' !! c = Some Idle /\
    forall tr2 s2, reach s' tr2 s2 ->
      count is_run tr2 = 0 /\
      forall w, EvRun w (Packaged (length (futures s)) f) ∉ tr2.
Proof.
  intros Hr Hf Hd Hm Hc.
  pose proof (finished_all_exited _ (join_inv_reach _ _ _ _ Hr) Hf) as Hex.
  pose proof (lookup_lt_Some _ _ _ Hc) as Hlt.
  eexists. split; [|split; [|split; [|split]]].
  - unfold sched_add_job, run.
    unfold step at 1. rewrite Hd, Hc.
    unfold step at 1, client_step; simpl.
    rewrite list_lookup_insert_eq by assumption. rewrite Hd. simpl. rewrite Hm.
    unfold step at 1, client_step; simpl.
    rewrite list_lookup_insert_eq by (rewrite ?length_insert; assumption).
    rewrite Hd. simpl.
    unfold step at 1, client_step; simpl.
    rewrite list_lookup_insert_eq by (rewrite ?length_insert; assumption).
    rewrite Hd. simpl.
    unfold step at 1, client_step; simpl.
    rewrite list_lookup_insert_eq by (rewrite ?length_insert; assumption).
    rewrite Hd. simpl. rewrite (notify_one_all_exited _ _ Hex).
    unfold step at 1, client_step; simpl.
    rewrite list_lookup_insert_eq by (rewrite ?length_insert; assumption).
    rewrite Hd. simpl.
    reflexivity.
  - reflexivity.
  - reflexivity.
  - simpl. apply list_lookup_insert_eq. rewrite ?length_insert. assumption.
  - intros tr2 s2 Hr2.
    eapply all_exited_reach in Hr2; [|exact Hex].
    destruct Hr2 as (_ & Hrun & _).
    split; [exact Hrun|]. intros w Hin.
    pose proof (count_pos is_run tr2) as Hpos.
    apply list_elem_of_lookup in Hin as [i Hi].
    specialize (Hpos _ _ Hi eq_refl). lia.
Qed.

Lemma add_job_after_join_all_witness :
  exists s',
    run (snd stopped_pool) (sched_add_job 0 (Returns 7) 0)
    = Some ([EvCall 0 (OpAddJob (Returns 7)); EvTau;
             EvEnqueue 0 (Packaged 0 (Returns 7)); EvAccepted 0; EvTau;
             EvSubmitted 0 0], s').
Proof.
  destruct (add_job_after_join_all 1 1 (fst stopped_pool) (snd stopped_pool)
              0 (Returns 7) 0) as (s' & H & _).
  - apply (run_reach sched_stop). vm_compute. reflexivity.
  - reflexivity.
  - reflexivity.
  - reflexivity.
  - reflexivity.
  - exists s'. exact H.
Defined.

(** ** The remaining counter *)

(** C3: in every state that the pool can reach, [jobs_left] is the 32-bit
    image of (jobs accepted by [AddJob]) + (no-op jobs made up by [next_job])
    - (jobs finished); this number is never negative, it counts the queued
    closures and the ones that workers hold (less the one of a caller that is
    between lines 125 and 127), and as long as it fits the [int] the counter
    equals it and is not negative.  Each step of each thread keeps all
    this. *)
Theorem remaining_counter_invariant tc m tr s :
  reach (new_pool tc m) tr s ->
  jobs_left s = wrap_int (outstanding tr) /\
  0 <= outstanding tr /\
  outstanding tr + count at_incr (clients s)
    = Z.of_nat (length (queue s)) + count holding (workers s) /\
  (outstanding tr <= INT_MAX -> jobs_left s = outstanding tr /\ 0 <= jobs_left s) /\
  (forall a e s', step s a = Some (e, s') ->
     jobs_left s' = wrap_int (outstanding (tr ++ [e])) /\
     0 <= outstanding (tr ++ [e]) /\
     outstanding (tr ++ [e])
     = outstanding tr + b2z (is_accepted e) + b2z (is_injected e) - b2z (is_finished e)).
Proof.
  intros Hr.
  pose proof (counter_inv_reach _ _ _ _ Hr) as (Hj & Hc & _ & _).
  pose proof (outstanding_nonneg _ _ _ _ Hr) as H0.
  split; [exact Hj|]. split; [exact H0|]. split; [exact Hc|]. split.
  - intros Hmax. rewrite Hj. rewrite wrap_int_small by lia. lia.
  - intros a e s' Hs.
    pose proof (reach_step _ _ _ _ _ _ Hr Hs) as Hr'.
    pose proof (counter_inv_reach _ _ _ _ Hr') as (Hj' & _).
    split; [exact Hj'|]. split; [exact (outstanding_nonneg _ _ _ _ Hr')|].
    unfold outstanding, accepted, injected, completed. rewrite !count_snoc. lia.
Qed.

Lemma remaining_counter_invariant_witness :
  jobs_left (snd taken_pool) = wrap_int (outstanding (fst taken_pool)) /\
  0 <= outstanding (fst taken_pool).
Proof.
  destruct (remaining_counter_invariant 1 1 (fst taken_pool) (snd taken_pool))
    as (H1 & H2 & _).
  - apply (run_reach sched_take). vm_compute. reflexivity.
  - split; [exact H1|exact H2].
Defined.

(** ** Order of execution *)

Lemma precedes_enqueued c c' A B tr :
  precedes (EvEnqueue c A) (EvEnqueue c' B) tr -> precedes A B (enqueued tr).
Proof.
  intros (l1 & l2 & l3 & ->).
  exists (enqueued l1), (enqueued l2), (enqueued l3).
  unfold enqueued. rewrite flat_map_app. simpl. rewrite flat_map_app. reflexivity.
Qed.

(** C7: the closures leave the queue in the order in which they entered it:
    what was dequeued so far, followed by the queue, is what was enqueued.
    So when the closure [A] was put into the queue before [B] (as it is when
    one thread submits [A] and then [B]) and [B] has left the queue, [A] has
    left it before [B]; and in a pool with one worker, when [B] has been executed,
    [A] was executed before [B]. *)
Theorem fifo_order tc m tr s :
  reach (new_pool tc m) tr s ->
  enqueued tr = dequeued tr ++ queue s /\
  (forall c c' A B, precedes (EvEnqueue c A) (EvEnqueue c' B) tr ->
     B ∈ dequeued tr -> precedes A B (dequeued tr)) /\
  (length (workers s) = 1%nat ->
   forall c c' A B, precedes (EvEnqueue c A) (EvEnqueue c' B) tr ->
     B ∈ executed tr -> precedes A B (executed tr)).
Proof.
  intros Hr.
  pose proof (fifo_inv_reach _ _ _ _ Hr) as (Hq & Hnd & _).
  split; [exact Hq|]. split.
  - intros c c' A B Hp%precedes_enqueued HB. rewrite Hq in Hp, Hnd.
    eapply precedes_prefix; eauto.
  - intros Hone c c' A B Hp%precedes_enqueued HB.
    destruct (workers s) as [|pc [|pc' ws]] eqn:Hw; try discriminate.
    pose proof (single_inv_reach _ _ _ _ Hr _ Hw) as Hd.
    rewrite Hq in Hp, Hnd. rewrite Hd in Hp, Hnd.
    apply NoDup_app in Hnd as [Hnd _].
    eapply precedes_prefix; [exact Hnd| |exact HB].
    eapply precedes_prefix; [|exact Hp|].
    + rewrite <- Hd, <- Hq. exact (proj1 (proj2 (fifo_inv_reach _ _ _ _ Hr))).
    + apply elem_of_app. left. exact HB.
Qed.

Lemma fifo_order_witness :
  enqueued (fst two_jobs_pool) = dequeued (fst two_jobs_pool) ++ queue (snd two_jobs_pool) /\
  enqueued (fst two_jobs_pool) = [Packaged 0 (Returns 1); Packaged 1 (Returns 2)] /\
  executed (fst two_jobs_pool) = [Packaged 0 (Returns 1)].
Proof.
  split; [|split; vm_compute; reflexivity].
  refine (proj1 (fifo_order 1 1 (fst two_jobs_pool) (snd two_jobs_pool) _)).
  apply (run_reach sched_two). vm_compute. reflexivity.
Defined.

(** ** The wake-up of [WaitAll] *)

(** C9 (the code at the failing schedule): line 46 decrements [jobs_left]
    and line 47 notifies [wait_var] without holding [wait_mutex], so both can
    fall between the predicate check of [WaitAll] and its going to sleep.
    The execution [sched_lost] ends with the counter at zero, all jobs done,
    the caller asleep in [WaitAll] and the worker asleep on the empty queue:
    no thread can take a step and no call can begin, so no notification of
    [wait_var] will come; only a spurious wake-up, which nothing promises,
    would end the wait. *)
Theorem wait_all_lost_wakeup :
  run (new_pool 1 1) sched_lost = Some (fst lost_pool, snd lost_pool) /\
  jobs_left (snd lost_pool) = 0 /\
  queue (snd lost_pool) = [] /\
  futures (snd lost_pool) = [Ready 7] /\
  clients (snd lost_pool) = [WaWaiting WaUser] /\
  workers (snd lost_pool) = [NjWaiting] /\
  (forall a e s', step (snd lost_pool) a = Some (e, s') -> exists t, a = Spurious t).
Proof.
  split; [vm_compute; reflexivity|].
  split; [vm_compute; reflexivity|].
  split; [vm_compute; reflexivity|].
  split; [vm_compute; reflexivity|].
  split; [vm_compute; reflexivity|].
  split; [vm_compute; reflexivity|].
  intros [[[|w]|[|c]] pick|[|c] o|t] e s' H; [..|eauto]; vm_compute in H; discriminate H.
Qed.

(** ** Shutdowns that never return *)

(** C5 (the code at the failing schedules): [JoinAll(true)] waits in
    [WaitAll], whose wake-up can be lost, for line 46 decrements [jobs_left]
    and line 47 notifies [wait_var] without [wait_mutex].  The execution
    [sched_join_lost] ends with the counter at zero and the only job done,
    while the caller of [JoinAll(true)] sleeps in [WaitAll]: [bailout] is not
    set and the thread is not joined, and no thread can take a step.
    [JoinAll(false)] sets [bailout] at once, but it sets the flag and
    notifies [job_available_var] without [queue_mutex]: the execution
    [sched_hang] ends with the worker asleep on the queue and the caller
    blocked in [join()].  In both, only a spurious wake-up, which nothing
    promises, would let the call go on. *)
Theorem join_all_lost_wakeup :
  run (new_pool 1 1) sched_join_lost = Some (fst join_lost_pool, snd join_lost_pool) /\
  jobs_left (snd join_lost_pool) = 0 /\
  queue (snd join_lost_pool) = [] /\
  futures (snd join_lost_pool) = [Ready 7] /\
  bailout (snd join_lost_pool) = false /\
  finished (snd join_lost_pool) = false /\
  threads (snd join_lost_pool) = [true] /\
  clients (snd join_lost_pool) = [WaWaiting (WaJoinAll JUser)] /\
  workers (snd join_lost_pool) = [NjWaiting] /\
  (forall a e s', step (snd join_lost_pool) a = Some (e, s') ->
     exists t, a = Spurious t) /\
  run (new_pool 1 1) sched_hang = Some (fst hung_pool, snd hung_pool) /\
  bailout (snd hung_pool) = true /\
  finished (snd hung_pool) = false /\
  threads (snd hung_pool) = [true] /\
  clients (snd hung_pool) = [JaJoin false JUser 0] /\
  workers (snd hung_pool) = [NjWaiting] /\
  (forall a e s', step (snd hung_pool) a = Some (e, s') -> exists t, a = Spurious t).
Proof.
  do 9 (split; [vm_compute; reflexivity|]).
  split.
  { intros [[[|w]|[|c]] pick|[|c] o|t] e s' H; [..|eauto];
      vm_compute in H; discriminate H. }
  do 6 (split; [vm_compute; reflexivity|]).
  intros [[[|w]|[|c]] pick|[|c] o|t] e s' H; [..|eauto]; vm_compute in H; discriminate H.
Qed.

(** C10 (the code at the failing schedule): the destructor calls
    [JoinAll()], so it waits in [WaitAll] like [JoinAll(true)], and its
    wake-up can be lost in the same way.  The execution [sched_dtor_lost]
    ends with the counter at zero and the only job done, while the destructor
    sleeps in [WaitAll]: the thread is not joined, the object is not
    destroyed, and no thread can take a step. *)
Theorem destructor_lost_wakeup :
  run (new_pool 1 1) sched_dtor_lost = Some (fst dtor_lost_pool, snd dtor_lost_pool) /\
  jobs_left (snd dtor_lost_pool) = 0 /\
  queue (snd dtor_lost_pool) = [] /\
  futures (snd dtor_lost_pool) = [Ready 7] /\
  bailout (snd dtor_lost_pool) = false /\
  finished (snd dtor_lost_pool) = false /\
  destroyed (snd dtor_lost_pool) = false /\
  threads (snd dtor_lost_pool) = [true] /\
  clients (snd dtor_lost_pool) = [WaWaiting (WaJoinAll JDtor)] /\
  workers (snd dtor_lost_pool) = [NjWaiting] /\
  (forall a e s', step (snd dtor_lost_pool) a = Some (e, s') ->
     exists t, a = Spurious t).
Proof.
  do 10 (split; [vm_compute; reflexivity|]).
  intros [[[|w]|[|c]] pick|[|c] o|t] e s' H; [..|eauto]; vm_compute in H; discriminate H.
Qed.

(** * Further properties of the pool *)

(** ** Every task is executed once at most, and fills its own future *)

Lemma life_inv_init tc m : life_inv [] (new_pool tc m).
Proof.
  intros fut. unfold new_pool; simpl.
  rewrite !count_replicate_false by reflexivity.
  repeat split; try reflexivity; intros; lia.
Qed.

Lemma life_inv_step tr s a e s' :
  pending_inv s -> life_inv tr s -> step s a = Some (e, s') ->
  life_inv (tr ++ [e]) s'.
Proof.
  intros (_ & Hp) Hl H fut.
  pose proof (step_alive _ _ _ _ H) as Hds.
  destruct (Hl fut) as (Ha & Hb & Hc & Hd).
  assert (Hc' : count (ran_fut fut) tr = 0 -> (fut < length (futures s))%nat ->
                futures s !! fut = Some Pending) by (intros; apply Hc; assumption).
  clear Hc. rename Hc' into Hc.
  assert (Hp' : forall fut,
             1 <= count (is_fut fut) (queue s) + count (holds_fut fut) (workers s) ->
             futures s !! fut = Some Pending)
    by (intros fut0; exact (proj2 (Hp fut0) Hds)).
  clear Hp.
  pose proof (count_nonneg (ran_fut fut) tr) as Hr0.
  pose proof (count_nonneg (is_fut fut) (queue s)) as Hq0.
  pose proof (count_nonneg (holds_fut fut) (workers s)) as Hh0.
  rewrite !count_snoc.
  step_cases H; simpl.
  all: count_norm; simpl in *.
  all: rewrite ?abandon_all_length.
  all: try (repeat split;
            first [assumption | lia
                  | intros; first [discriminate | apply Hc; lia | apply Hd; lia]]).
  (* 93: the futures of the queued tasks are broken, none is emptied *)
  all: try (repeat split;
            first [assumption | lia | intros; discriminate
                  | intros Hran Hab;
                    apply abandon_all_lookup in Hab as [Hab|[_ [=]]];
                    apply Hd; [lia|exact Hab]]).
  - (* 44, an exception escapes: excluded, the task has not run yet *)
    destruct res as [fut0 f|]; simpl in *; [|discriminate].
    pose proof (Hp' fut0) as Hpend.
    pose proof (count_pos (holds_fut fut0) _ _ _ Heqo) as Hpos.
    simpl in Hpos. rewrite Nat.eqb_refl in Hpos. specialize (Hpos eq_refl).
    pose proof (count_nonneg (is_fut fut0) (queue s)).
    rewrite Hpend in Heqp by lia. discriminate.
  - (* 44, the closure is called *)
    destruct res as [fut0 f|]; simpl in *.
    + pose proof (Hp' fut0) as Hpend.
      pose proof (count_pos (holds_fut fut0) _ _ _ Heqo) as Hpos.
      simpl in Hpos. rewrite Nat.eqb_refl in Hpos. specialize (Hpos eq_refl).
      pose proof (count_nonneg (is_fut fut0) (queue s)).
      rewrite Hpend in Heqp by lia. injection Heqp as <-.
      rewrite length_insert.
      destruct (Nat.eqb_spec fut fut0) as [->|Hne]; simpl.
      * repeat split; try lia.
        intros _. rewrite list_lookup_insert_eq by (eapply lookup_lt_Some; apply Hpend; lia).
        destruct f; discriminate.
      * rewrite !list_lookup_insert_ne by congruence.
        repeat split; first [lia | intros; first [apply Hc; lia | apply Hd; lia]].
    + injection Heqp as <-.
      repeat split; first [lia | intros; first [apply Hc; lia | apply Hd; lia]].
  - (* 123, a new future and its task *)
    rewrite count_app, length_app. simpl.
    destruct (Nat.eqb_spec fut (length (futures s))) as [->|Hne]; simpl.
    + rewrite Nat.ltb_irrefl in Hb. simpl in Hb.
      replace (length (futures s) <? length (futures s) + 1)%nat with true
        by (symmetry; apply Nat.ltb_lt; lia).
      simpl. repeat split; try lia.
      intros _ _ _. apply list_lookup_middle. reflexivity.
    + destruct (Nat.ltb_spec fut (length (futures s))) as [Hlt|Hge].
      * replace (fut <? length (futures s) + 1)%nat with true
          by (symmetry; apply Nat.ltb_lt; lia).
        rewrite lookup_app_l by assumption.
        repeat split; first [lia | intros; first [apply Hc; lia | apply Hd; lia]].
      * replace (fut <? length (futures s) + 1)%nat with false
          by (symmetry; apply Nat.ltb_ge; lia).
        simpl in *. repeat split; try lia.
Qed.

Lemma life_inv_reach tc m tr s : reach (new_pool tc m) tr s -> life_inv tr s.
Proof.
  intros Hr. induction Hr as [|tr s a e s' Hr IH Hs]; [apply life_inv_init|].
  eapply life_inv_step; eauto using pending_inv_reach.
Qed.

Lemma outcome_inv_init tc m : outcome_inv [] (new_pool tc m).
Proof.
  split; [|split].
  - intros w fut f H. inversion H.
  - intros cl H. inversion H.
  - intros w fut f [[H _]%lookup_replicate|[H _]%lookup_replicate]; discriminate.
Qed.

Lemma outcome_inv_step tr s a e s' :
  pending_inv s -> outcome_inv tr s -> step s a = Some (e, s') ->
  outcome_inv (tr ++ [e]) s'.
Proof.
  intros (_ & Hp) (H1 & H2 & H3) H.
  unfold outcome_inv. step_cases H; simpl.
  all: split; [|split].
  (* the closures in the queue *)
  all: try (intros cl Hcl; destruct (H2 cl) as [c' Hc'];
            [first [assumption|right; assumption]
            |exists c'; apply elem_of_app; left; exact Hc']; fail).
  (* the closures that workers hold *)
  all: try (intros w0 fut0 f0 Hw0; destruct (H3 w0 fut0 f0) as [c' Hc'];
            [assumption|exists c'; apply elem_of_app; left; exact Hc']; fail).
  all: try (intros w0 fut0 f0 [[[<- [=]]|[_ Hw0]]%lookup_insert_cases
                              |[[<- [=]]|[_ Hw0]]%lookup_insert_cases];
            (destruct (H3 w0 fut0 f0) as [c' Hc'];
             [auto|exists c'; apply elem_of_app; left; exact Hc']); fail).
  (* what was executed *)
  all: try (intros w0 fut0 f0 [Hin|[=]%list_elem_of_singleton]%elem_of_app;
            destruct (H1 _ _ _ Hin) as [Hs (c' & Hc')];
            (split; [first [assumption|apply lookup_app_l_Some; assumption
                           |apply abandon_all_ready;
                            [assumption|destruct f0; discriminate]]
                    |exists c'; apply elem_of_app; left; exact Hc']); fail).
  - (* 66-67: the head of the queue goes to the worker *)
    intros w0 fut0 f0 [[[<- [= ->]]|[_ Hw0]]%lookup_insert_cases
                      |[[<- [=]]|[_ Hw0]]%lookup_insert_cases].
    + destruct (H2 (Packaged fut0 f0)) as [c' Hc']; [left|].
      exists c'. apply elem_of_app. left. exact Hc'.
    + destruct (H3 w0 fut0 f0) as [c' Hc']; [auto|].
      exists c'. apply elem_of_app. left. exact Hc'.
    + destruct (H3 w0 fut0 f0) as [c' Hc']; [auto|].
      exists c'. apply elem_of_app. left. exact Hc'.
  - (* 73: the closure is returned to Task *)
    intros w0 fut0 f0 [[[<- [=]]|[_ Hw0]]%lookup_insert_cases
                      |[[<- [= ->]]|[_ Hw0]]%lookup_insert_cases].
    + destruct (H3 w0 fut0 f0) as [c' Hc']; [auto|].
      exists c'. apply elem_of_app. left. exact Hc'.
    + destruct (H3 w fut0 f0) as [c' Hc']; [auto|].
      exists c'. apply elem_of_app. left. exact Hc'.
    + destruct (H3 w0 fut0 f0) as [c' Hc']; [auto|].
      exists c'. apply elem_of_app. left. exact Hc'.
  - (* 44, an exception escapes: excluded *)
    destruct res as [fut0 f|]; simpl in *; [|discriminate].
    destruct (Hp fut0) as [_ Hpend].
    pose proof (count_pos (holds_fut fut0) _ _ _ Heqo) as Hpos.
    simpl in Hpos. rewrite Nat.eqb_refl in Hpos. specialize (Hpos eq_refl).
    pose proof (count_nonneg (is_fut fut0) (queue s)).
    rewrite Hpend in Heqp by lia. discriminate.
  - (* 44: the closure is called *)
    intros w0 fut0 f0 [Hin|Hin%list_elem_of_singleton]%elem_of_app.
    + destruct (H1 _ _ _ Hin) as [Hs (c' & Hc')].
      split; [|exists c'; apply elem_of_app; left; exact Hc'].
      destruct res as [fut1 f1|]; simpl in *; [|congruence].
      destruct (futures s !! fut1) as [[]|] eqn:Hf1; injection Heqp as <-; try assumption.
      rewrite list_lookup_insert_ne; [assumption|].
      intros <-. rewrite Hf1 in Hs. destruct f0; discriminate.
    + injection Hin as <- <-. simpl in *.
      destruct (Hp fut0) as [_ Hpend].
      pose proof (count_pos (holds_fut fut0) _ _ _ Heqo) as Hpos.
      simpl in Hpos. rewrite Nat.eqb_refl in Hpos. specialize (Hpos eq_refl).
      pose proof (count_nonneg (is_fut fut0) (queue s)).
      rewrite Hpend in Heqp by lia. injection Heqp as <-.
      split; [apply list_lookup_insert_eq; eapply lookup_lt_Some; apply Hpend; lia|].
      destruct (H3 w0 fut0 f0) as [c' Hc']; [auto|].
      exists c'. apply elem_of_app. left. exact Hc'.
  - (* 123: the new task *)
    intros cl [Hcl| ->%list_elem_of_singleton]%elem_of_app.
    + destruct (H2 cl Hcl) as [c' Hc']. exists c'. apply elem_of_app. left. exact Hc'.
    + exists c. apply elem_of_app. right. left.
  - intros w0 fut0 f0 [Hw0|Hw0];
      (destruct (notify_one_lookup _ _ _ _ _ _ Heqo0 Hw0)
        as [Hw|(x & _ & [_ [=]]%wake_worker_inv)];
       destruct (H3 w0 fut0 f0) as [c' Hc']; [auto|];
       exists c'; apply elem_of_app; left; exact Hc').
  - intros w0 fut0 f0 [Hw0|Hw0];
      (destruct (notify_all_lookup _ _ _ _ Hw0)
        as [Hw|(x & _ & [_ [=]]%wake_worker_inv)];
       destruct (H3 w0 fut0 f0) as [c' Hc']; [auto|];
       exists c'; apply elem_of_app; left; exact Hc').
  - intros w0 fut0 f0 [Hw0|Hw0];
      (destruct (notify_all_lookup _ _ _ _ Hw0)
        as [Hw|(x & _ & [_ [=]]%wake_worker_inv)];
       destruct (H3 w0 fut0 f0) as [c' Hc']; [auto|];
       exists c'; apply elem_of_app; left; exact Hc').
Qed.

Lemma outcome_inv_reach tc m tr s : reach (new_pool tc m) tr s -> outcome_inv tr s.
Proof.
  intros Hr. induction Hr as [|tr s a e s' Hr IH Hs]; [apply outcome_inv_init|].
  eapply outcome_inv_step; eauto using pending_inv_reach.
Qed.


Lemma count_exists {A} (p : A -> bool) (l : list A) :
  1 <= count p l -> exists x, x ∈ l /\ p x = true.
Proof.
  induction l as [|x l IH]; simpl; [lia|].
  destruct (p x) eqn:Hp; simpl.
  - intros _. exists x. split; [left|exact Hp].
  - intros H. destruct IH as (y & Hy & Hpy); [lia|].
    exists y. split; [right; exact Hy|exact Hpy].
Qed.

(** X1: no packaged task is executed twice, and a task is executed only
    after a caller has put it into the queue. *)
Theorem task_runs_once tc m tr s :
  reach (new_pool tc m) tr s ->
  (forall fut, count (ran_fut fut) tr <= 1) /\
  (forall w fut f, EvRun w (Packaged fut f) ∈ tr ->
     exists c, EvEnqueue c (Packaged fut f) ∈ tr).
Proof.
  intros Hr. split.
  - intros fut. destruct (life_inv_reach _ _ _ _ Hr fut) as (Ha & Hb & _).
    pose proof (count_nonneg (is_fut fut) (queue s)).
    pose proof (count_nonneg (holds_fut fut) (workers s)).
    pose proof (b2z_range (fut <? length (futures s))%nat). lia.
  - intros w fut f Hin.
    destruct (outcome_inv_reach _ _ _ _ Hr) as (H1 & _).
    exact (proj2 (H1 _ _ _ Hin)).
Qed.

Lemma task_runs_once_witness :
  (forall fut, count (ran_fut fut) (fst two_jobs_pool) <= 1) /\
  count (ran_fut 0) (fst two_jobs_pool) = 1.
Proof.
  split; [|vm_compute; reflexivity].
  refine (proj1 (task_runs_once 1 1 (fst two_jobs_pool) (snd two_jobs_pool) _)).
  apply (run_reach sched_two). vm_compute. reflexivity.
Defined.

(** X2: [get] on a future yields something only after the task of that
    future was executed, and then it yields the value that the submitted
    callable returned, or the exception that it threw; or after the pool was
    destroyed with the task still in its queue, never executed, and then it
    throws [broken_promise].  Once the task was executed, [get] yields the
    outcome of the callable, also after the pool is gone. *)
Theorem future_holds_own_result tc m tr s fut :
  reach (new_pool tc m) tr s ->
  (forall r, future_get (futures s) fut = Some r ->
     (exists c w f, EvEnqueue c (Packaged fut f) ∈ tr /\
                    EvRun w (Packaged fut f) ∈ tr /\ r = result_of f) \/
     (destroyed s = true /\ r = inr broken_promise /\
      count (ran_fut fut) tr = 0 /\
      exists c f, EvEnqueue c (Packaged fut f) ∈ tr)) /\
  (forall w f, EvRun w (Packaged fut f) ∈ tr ->
     future_get (futures s) fut = Some (result_of f)).
Proof.
  intros Hr.
  destruct (outcome_inv_reach _ _ _ _ Hr) as (H1 & _).
  assert (Hran : forall w f, EvRun w (Packaged fut f) ∈ tr ->
                   future_get (futures s) fut = Some (result_of f)).
  { intros w f Hin. destruct (H1 _ _ _ Hin) as [Hs _].
    unfold future_get. rewrite Hs. destruct f; reflexivity. }
  split; [|exact Hran].
  intros r Hget.
  destruct (life_inv_reach _ _ _ _ Hr fut) as (_ & Hb & Hc & _).
  assert (Hlt : (fut < length (futures s))%nat).
  { unfold future_get in Hget. destruct (futures s !! fut) eqn:Hf; [|discriminate].
    eapply lookup_lt_Some; eauto. }
  pose proof (count_nonneg (ran_fut fut) tr) as H0.
  destruct (Z.eq_dec (count (ran_fut fut) tr) 0) as [Hz|Hnz].
  - (* the task was not executed: its promise was broken *)
    right. destruct (destroyed s) eqn:Hd.
    2:{ unfold future_get in Hget. rewrite (Hc Hz Hlt eq_refl) in Hget. discriminate. }
    split; [reflexivity|]. split; [|split; [exact Hz|]].
    + destruct (reach_destroyed _ _ _ Hr eq_refl Hd)
        as (tr1 & s1 & a & e & Hr1 & Hd1 & Hs & ->).
      destruct (step_destroyed _ _ _ _ Hs Hd) as (_ & _ & _ & Hf & c & ->).
      rewrite count_snoc in Hz. simpl in Hz.
      destruct (life_inv_reach _ _ _ _ Hr1 fut) as (_ & _ & Hc1 & _).
      rewrite Hf, abandon_all_length in Hlt.
      specialize (Hc1 ltac:(lia) Hlt Hd1).
      unfold future_get in Hget. rewrite Hf in Hget.
      destruct (abandon_all (queue s1) (futures s1) !! fut) as [sl|] eqn:Hsl;
        [|discriminate].
      apply abandon_all_lookup in Hsl as [Hsl|[_ ->]].
      * rewrite Hc1 in Hsl. injection Hsl as <-. discriminate.
      * injection Hget as <-. reflexivity.
    + apply Nat.ltb_lt in Hlt. rewrite Hlt in Hb. simpl in Hb.
      destruct (count_exists (enq_fut fut) tr ltac:(lia)) as (e & Hin & He).
      destruct e as [|c0 cl| | | | | | | | | | | | |]; try discriminate.
      destruct cl as [fut' f|]; [|discriminate]. simpl in He.
      apply Nat.eqb_eq in He as <-. eauto.
  - (* the task was executed *)
    left. destruct (count_exists (ran_fut fut) tr ltac:(lia)) as (e & Hin & He).
    destruct e as [| | | | |  |w cl| | | | | | | |]; try discriminate.
    destruct cl as [fut' f|]; [|discriminate]. simpl in He.
    apply Nat.eqb_eq in He as <-.
    destruct (H1 _ _ _ Hin) as [_ (c & Hc')].
    exists c, w, f. split; [exact Hc'|]. split; [exact Hin|].
    rewrite (Hran _ _ Hin) in Hget. congruence.
Qed.

Lemma future_holds_own_result_witness :
  future_get (futures (snd two_jobs_pool)) 0 = Some (result_of (Returns 1)).
Proof.
  refine (proj2 (future_holds_own_result 1 1 (fst two_jobs_pool) (snd two_jobs_pool) 0 _)
            0%nat (Returns 1) _).
  - apply (run_reach sched_two). vm_compute. reflexivity.
  - vm_compute. do 17 right. left.
Defined.

(** ** Futures are written once *)

Lemma step_future_stable s a e s' fut sl :
  futures s !! fut = Some sl -> sl <> Pending ->
  step s a = Some (e, s') -> futures s' !! fut = Some sl.
Proof.
  intros Hf Hne H. step_cases H; simpl; try assumption.
  all: try (apply abandon_all_ready; assumption).
  - destruct res as [fut0 f|]; simpl in *; [|congruence].
    destruct (futures s !! fut0) as [[]|] eqn:Hf0; try discriminate;
      injection Heqp as <- _; assumption.
  - destruct res as [fut0 f|]; simpl in *; [|congruence].
    destruct (futures s !! fut0) as [[]|] eqn:Hf0; injection Heqp as <-; try assumption.
    rewrite list_lookup_insert_ne; [assumption|]. intros <-. congruence.
  - apply lookup_app_l_Some. assumption.
Qed.

(** X3: once [get] on a future yields a result, it yields the same result
    in every later state: no step overwrites a fulfilled future. *)
Theorem future_written_once s tr s' fut r :
  future_get (futures s) fut = Some r ->
  reach s tr s' -> future_get (futures s') fut = Some r.
Proof.
  intros Hg Hr. induction Hr as [|tr s1 a e s2 Hr IH Hs]; [exact Hg|].
  unfold future_get in *.
  destruct (futures s1 !! fut) as [sl|] eqn:Hf; [|discriminate].
  assert (Hne : sl <> Pending) by (intros ->; discriminate).
  rewrite (step_future_stable _ _ _ _ _ _ Hf Hne Hs). exact IH.
Qed.

Lemma future_written_once_witness :
  future_get (futures (snd (outcome (snd two_jobs_pool) [Run (W 0) 0]))) 0
  = Some (inl 1).
Proof.
  apply (future_written_once (snd two_jobs_pool)
           (fst (outcome (snd two_jobs_pool) [Run (W 0) 0]))).
  - vm_compute. reflexivity.
  - apply (run_reach [Run (W 0) 0]). vm_compute. reflexivity.
Defined.

(** ** Idleness *)

(** X4: when [jobs_left] is zero (and has not overflowed) and no caller is
    between lines 125 and 127 of [AddJob], the queue is empty, no worker is
    between taking a closure and decrementing the counter, and every future
    that was handed out is fulfilled.  This is the state that [WaitAll] sees
    when it finds the counter at zero. *)
Theorem idle_means_done tc m tr s :
  reach (new_pool tc m) tr s ->
  jobs_left s = 0 -> outstanding tr <= INT_MAX ->
  count at_incr (clients s) = 0 ->
  queue s = [] /\
  count holding (workers s) = 0 /\
  (forall fut, (fut < length (futures s))%nat ->
     exists r, future_get (futures s) fut = Some r).
Proof.
  intros Hr Hj Hmax Hat.
  pose proof (counter_inv_reach _ _ _ _ Hr) as (Hjw & Hc & _ & _).
  pose proof (outstanding_nonneg _ _ _ _ Hr) as H0.
  rewrite wrap_int_small in Hjw by lia.
  pose proof (count_nonneg holding (workers s)) as Hh.
  assert (Hq : queue s = []) by (destruct (queue s); [reflexivity|simpl in *; lia]).
  assert (Hh0 : count holding (workers s) = 0) by (rewrite Hq in Hc; simpl in Hc; lia).
  split; [exact Hq|]. split; [exact Hh0|].
  intros fut Hlt.
  destruct (life_inv_reach _ _ _ _ Hr fut) as (Ha & Hb & _ & Hd).
  apply Nat.ltb_lt in Hlt as Hltb. rewrite Hltb in Hb. simpl in Hb.
  rewrite Hq in Ha. simpl in Ha.
  pose proof (count_le (holds_fut fut) holding (workers s)
                ltac:(intros []; simpl; congruence)) as Hle.
  pose proof (count_nonneg (holds_fut fut) (workers s)).
  assert (Hran : 1 <= count (ran_fut fut) tr) by lia.
  specialize (Hd Hran). unfold future_get.
  destruct (lookup_lt_is_Some_2 (futures s) fut Hlt) as [sl Hsl].
  rewrite Hsl in *. destruct sl; [congruence|eauto|eauto].
Qed.

Lemma idle_means_done_witness :
  queue (snd drained_pool) = [] /\
  exists r, future_get (futures (snd drained_pool)) 0 = Some r.
Proof.
  destruct (idle_means_done 1 1 (fst drained_pool) (snd drained_pool))
    as (Hq & _ & Hf).
  - apply (run_reach sched_drain). vm_compute. reflexivity.
  - reflexivity.
  - vm_compute. discriminate.
  - reflexivity.
  - split; [exact Hq|]. apply Hf. vm_compute. lia.
Defined.

(** ** The two mutexes *)

Lemma wait_mutex_inv_step s a e s' :
  wait_mutex_inv s -> step s a = Some (e, s') -> wait_mutex_inv s'.
Proof.
  unfold wait_mutex_inv. intros Hm H.
  pose proof (count_nonneg in_wait_cs (clients s)) as Hc0.
  step_cases H; simpl.
  all: try match goal with
         | H : clients _ !! _ = Some _ |- _ =>
             pose proof (count_pos in_wait_cs _ _ _ H eq_refl)
         end.
  all: count_norm; simpl.
  all: destruct (wait_mutex s); simpl in *; lia.
Qed.

Lemma wait_mutex_inv_reach tc m tr s : reach (new_pool tc m) tr s -> wait_mutex_inv s.
Proof.
  intros Hr. induction Hr as [|tr s a e s' Hr IH Hs].
  - unfold wait_mutex_inv; simpl. apply count_replicate_false. reflexivity.
  - eapply wait_mutex_inv_step; eauto.
Qed.

(** X5: mutual exclusion.  At most one thread is between the lock and the
    unlock of [queue_mutex] (in [next_job] or in [AddJob]), and then the
    mutex is locked; the same holds for [wait_mutex] and [WaitAll]. *)
Theorem mutual_exclusion tc m tr s :
  reach (new_pool tc m) tr s ->
  count in_queue_cs_w (workers s) + count in_queue_cs_c (clients s)
  = b2z (queue_mutex s) /\
  count in_wait_cs (clients s) = b2z (wait_mutex s) /\
  (forall i j pi pj, i <> j ->
     workers s !! i = Some pi -> workers s !! j = Some pj ->
     in_queue_cs_w pi = true -> in_queue_cs_w pj = false) /\
  (forall w c pw pc,
     workers s !! w = Some pw -> clients s !! c = Some pc ->
     in_queue_cs_w pw = true -> in_queue_cs_c pc = false).
Proof.
  intros Hr.
  pose proof (counter_inv_reach _ _ _ _ Hr) as (_ & _ & Hm & _).
  pose proof (b2z_range (queue_mutex s)) as Hb.
  pose proof (count_nonneg in_queue_cs_c (clients s)) as Hc0.
  pose proof (count_nonneg in_queue_cs_w (workers s)) as Hw0.
  split; [exact Hm|]. split; [exact (wait_mutex_inv_reach _ _ _ _ Hr)|]. split.
  - intros i j pi pj Hne Hi Hj Hpi.
    destruct (in_queue_cs_w pj) eqn:Hpj; [|reflexivity].
    pose proof (count_pos2 in_queue_cs_w _ _ _ _ _ Hne Hi Hj Hpi Hpj). lia.
  - intros w c pw pc Hw Hc Hpw.
    destruct (in_queue_cs_c pc) eqn:Hpc; [|reflexivity].
    pose proof (count_pos in_queue_cs_w _ _ _ Hw Hpw).
    pose proof (count_pos in_queue_cs_c _ _ _ Hc Hpc). lia.
Qed.

Lemma mutual_exclusion_witness :
  count in_queue_cs_w (workers (snd bailing_pool))
  + count in_queue_cs_c (clients (snd bailing_pool)) = 1.
Proof.
  refine (proj1 (mutual_exclusion 1 1 (fst bailing_pool) (snd bailing_pool) _)).
  apply (run_reach sched_bail). vm_compute. reflexivity.
Defined.

(** ** Leaving the loop *)

Lemma exit_inv_step s a e s' : exit_inv s -> step s a = Some (e, s') -> exit_inv s'.
Proof.
  intros (Hw & Hc & Hf) H. unfold exit_inv.
  step_cases H; simpl.
  all: split; [|split].
  all: try assumption.
  all: try (intros; reflexivity).
  all: try (intros w0 [[<- [=]]|[_ Hw0]]%lookup_insert_cases; eauto; fail).
  all: try (intros c0 pc0 [[<- <-]|[_ Hc0]]%lookup_insert_cases Hp;
            first [discriminate Hp | eauto]; fail).
  all: try (intros Hfin; first [discriminate Hfin | congruence | eauto]; fail).
  all: try match goal with
         | H : notify_one wake_client _ _ = Some _ |- _ =>
             intros c0 pc0 Hl Hp;
             destruct (notify_one_lookup _ _ _ _ _ _ H Hl)
               as [Hl'|(x & _ & (k & _ & ->)%wake_client_inv)];
             [eauto|discriminate Hp]
         end.
  all: try match goal with
         | H : notify_one wake_worker _ _ = Some _ |- _ =>
             intros w0 Hl;
             destruct (notify_one_lookup _ _ _ _ _ _ H Hl)
               as [Hl'|(x & _ & [_ [=]]%wake_worker_inv)]; eauto
         end.
  all: try (intros w0 Hl;
            destruct (notify_all_lookup _ _ _ _ Hl)
              as [Hl'|(x & _ & [_ [=]]%wake_worker_inv)]; eauto; fail).
Qed.

Lemma exit_inv_reach tc m tr s : reach (new_pool tc m) tr s -> exit_inv s.
Proof.
  intros Hr. induction Hr as [|tr s a e s' Hr IH Hs].
  - split; [|split].
    + intros w [H _]%lookup_replicate. discriminate.
    + intros c pc [-> _]%lookup_replicate. discriminate.
    + discriminate.
  - eapply exit_inv_step; eauto.
Qed.

Lemma reach_flags s tr s' :
  reach s tr s' ->
  (bailout s = true -> bailout s' = true) /\ (finished s = true -> finished s' = true).
Proof.
  intros Hr. induction Hr as [|tr s1 a e s2 Hr IH Hs]; [auto|].
  destruct (step_flags _ _ _ _ Hs). intuition.
Qed.

(** X6: the life cycle is monotonic.  No worker leaves the loop of [Task]
    before [bailout] is set; when [finished] is set, [bailout] is set and all
    workers are over; and neither flag is ever cleared again. *)
Theorem lifecycle_monotonic tc m tr s :
  reach (new_pool tc m) tr s ->
  (forall w, workers s !! w = Some TaskExited -> bailout s = true) /\
  (finished s = true -> bailout s = true /\ all_exited (workers s)) /\
  (forall tr2 s2, reach s tr2 s2 ->
     (bailout s = true -> bailout s2 = true) /\
     (finished s = true -> finished s2 = true)).
Proof.
  intros Hr. destruct (exit_inv_reach _ _ _ _ Hr) as (Hw & _ & Hf).
  split; [exact Hw|]. split.
  - intros Hfin. split; [exact (Hf Hfin)|].
    exact (finished_all_exited _ (join_inv_reach _ _ _ _ Hr) Hfin).
  - intros tr2 s2 Hr2. exact (reach_flags _ _ _ Hr2).
Qed.

Lemma lifecycle_monotonic_witness :
  bailout (snd stopped_pool) = true /\ all_exited (workers (snd stopped_pool)).
Proof.
  refine (proj1 (proj2 (lifecycle_monotonic 1 1 (fst stopped_pool) (snd stopped_pool) _)) _).
  - apply (run_reach sched_stop). vm_compute. reflexivity.
  - reflexivity.
Defined.

(** A worker at line 64 of a pool that was told to stop. *)
Lemma front_defined_witness :
  exists e s', step (snd bailing_pool) (Run (W 0) 0) = Some (e, s').
Proof.
  apply (front_defined 1 1 (fst bailing_pool) (snd bailing_pool) 0 0).
  - apply (run_reach sched_bail). vm_compute. reflexivity.
  - reflexivity.
  - reflexivity.
Defined.

(** ** [JobsRemaining] *)

(** X8: [JobsRemaining] returns the length of the queue, which is the
    number of outstanding jobs less the closures that workers hold: jobs that
    are being executed are not counted, and as long as the counter has not
    overflowed the result is between 0 and [jobs_left]. *)
Theorem jobs_remaining_bound tc m tr s :
  reach (new_pool tc m) tr s ->
  queue_mutex s = false ->
  Z.of_nat (length (queue s)) = outstanding tr - count holding (workers s) /\
  (outstanding tr <= INT_MAX ->
   exists n, JobsRemaining s = Some n /\
             n = Z.of_nat (length (queue s)) /\ 0 <= n <= jobs_left s).
Proof.
  intros Hr Hm.
  pose proof (counter_inv_reach _ _ _ _ Hr) as (Hj & Hc & Hcs & _).
  pose proof (outstanding_nonneg _ _ _ _ Hr) as H0.
  pose proof (count_le at_incr in_queue_cs_c (clients s)
                ltac:(intros []; simpl; congruence)) as Hle.
  pose proof (count_nonneg in_queue_cs_w (workers s)).
  pose proof (count_nonneg at_incr (clients s)).
  pose proof (count_nonneg holding (workers s)).
  rewrite Hm in Hcs. simpl in Hcs.
  split; [lia|]. intros Hmax.
  unfold JobsRemaining. rewrite Hm. eexists. split; [reflexivity|].
  rewrite Hj, wrap_int_small by lia.
  unfold to_unsigned. unfold INT_MAX in *. rewrite Z.mod_small by lia. lia.
Qed.

Lemma jobs_remaining_bound_witness :
  exists n, JobsRemaining (snd taken_pool) = Some n /\
            n = Z.of_nat (length (queue (snd taken_pool))) /\
            0 <= n <= jobs_left (snd taken_pool).
Proof.
  destruct (jobs_remaining_bound 1 1 (fst taken_pool) (snd taken_pool))
    as (_ & H).
  - apply (run_reach sched_take). vm_compute. reflexivity.
  - reflexivity.
  - apply H. vm_compute. discriminate.
Defined.

(** ** Jobs that are left over *)

(** X9: [JoinAll] does not empty the queue.  A task that is still queued
    when [finished] is set is never executed.  As long as the pool exists the
    task stays in the queue and [get] on its future blocks; when the pool is
    destroyed the task is destroyed with the queue, and [get] throws
    [broken_promise]. *)
Theorem queued_jobs_abandoned tc m tr s fut f :
  reach (new_pool tc m) tr s ->
  finished s = true -> destroyed s = false -> Packaged fut f ∈ queue s ->
  forall tr2 s2, reach s tr2 s2 ->
    count is_run tr2 = 0 /\
    (destroyed s2 = false ->
     Packaged fut f ∈ queue s2 /\ future_get (futures s2) fut = None) /\
    (destroyed s2 = true ->
     future_get (futures s2) fut = Some (inr broken_promise)).
Proof.
  intros Hr Hf Hd Hin tr2 s2 Hr2.
  pose proof (finished_all_exited _ (join_inv_reach _ _ _ _ Hr) Hf) as Hex.
  assert (Hpend : futures s !! fut = Some Pending).
  { destruct (pending_inv_reach _ _ _ _ Hr) as (_ & Hp).
    destruct (Hp fut) as [_ Hpend]. apply (Hpend Hd).
    apply list_elem_of_lookup in Hin as [i Hi].
    pose proof (count_pos (is_fut fut) _ _ _ Hi) as Hpos.
    simpl in Hpos. rewrite Nat.eqb_refl in Hpos. specialize (Hpos eq_refl).
    pose proof (count_nonneg (holds_fut fut) (workers s)). lia. }
  destruct (all_exited_reach _ _ _ Hex Hr2) as (_ & Hrun & Hfut & Hq).
  split; [exact Hrun|]. split.
  - intros Hd2. split; [exact (Hq _ Hin)|].
    unfold future_get. rewrite (Hfut fut Hpend Hd2). reflexivity.
  - intros Hd2.
    destruct (reach_destroyed _ _ _ Hr2 Hd Hd2)
      as (tr1 & s1 & a & e & Hr1 & Hd1 & Hs & _).
    destruct (all_exited_reach _ _ _ Hex Hr1) as (_ & _ & Hfut1 & Hq1).
    destruct (step_destroyed _ _ _ _ Hs Hd2) as (_ & _ & _ & Hfs & _).
    unfold future_get. rewrite Hfs.
    rewrite (abandon_all_queued _ _ _ _ (Hq1 _ Hin) (Hfut1 fut Hpend Hd1)).
    reflexivity.
Qed.

Lemma queued_jobs_abandoned_witness :
  future_get (futures (snd abandoned_pool)) 0 = None /\
  future_get (futures (snd broken_pool)) 0 = Some (inr broken_promise).
Proof.
  assert (Hr : reach (new_pool 1 1) (fst abandoned_pool) (snd abandoned_pool))
    by (apply (run_reach sched_abandon); vm_compute; reflexivity).
  assert (Hin : Packaged 0 (Returns 9) ∈ queue (snd abandoned_pool))
    by (vm_compute; left).
  split.
  - refine (proj2 (proj1 (proj2 (queued_jobs_abandoned 1 1 (fst abandoned_pool)
                                   (snd abandoned_pool) 0 (Returns 9) Hr eq_refl eq_refl
                                   Hin [] (snd abandoned_pool) _)) eq_refl)).
    constructor.
  - refine (proj2 (proj2 (queued_jobs_abandoned 1 1 (fst abandoned_pool)
                            (snd abandoned_pool) 0 (Returns 9) Hr eq_refl eq_refl
                            Hin (fst broken_pool) (snd broken_pool) _)) eq_refl).
    apply (run_reach sched_dtor). vm_compute. reflexivity.
Defined.

(** ** A shutdown that never returns *)

(** X10: [bailout] is set and [job_available_var] is notified without
    [queue_mutex], so both can fall between a worker's predicate check at
    line 61 and its going to sleep.  The execution [sched_hang] ends with
    [bailout] set, the worker asleep in [next_job] and the caller blocked in
    [join()] of [JoinAll]: no thread can take a step and no call can begin;
    only a spurious wake-up would let the shutdown go on. *)
Theorem join_all_can_hang :
  run (new_pool 1 1) sched_hang = Some (fst hung_pool, snd hung_pool) /\
  bailout (snd hung_pool) = true /\
  finished (snd hung_pool) = false /\
  workers (snd hung_pool) = [NjWaiting] /\
  clients (snd hung_pool) = [JaJoin false JUser 0] /\
  (forall a e s', step (snd hung_pool) a = Some (e, s') -> exists t, a = Spurious t).
Proof.
  split; [vm_compute; reflexivity|].
  split; [vm_compute; reflexivity|].
  split; [vm_compute; reflexivity|].
  split; [vm_compute; reflexivity|].
  split; [vm_compute; reflexivity|].
  intros [[[|w]|[|c]] pick|[|c] o|t] e s' H; [..|eauto]; vm_compute in H; discriminate H.
Qed.

(** ** The size of the pool *)

Lemma reach_length s0 tr s :
  reach s0 tr s ->
  length (workers s) = length (workers s0) /\
  length (threads s) = length (threads s0) /\
  length (clients s) = length (clients s0) /\
  threadcount s = threadcount s0.
Proof.
  intros Hr. induction Hr as [|tr s a e s' _ IH Hs]; [auto|].
  apply step_length in Hs. intuition congruence.
Qed.

(** X11: the pool is never resized.  In every state of a pool constructed
    with [0 <= threadcount], [Size] is that count, and it is the number of
    worker threads and of thread handles. *)
Theorem size_is_fixed tc m tr s :
  0 <= tc <= INT_MAX ->
  reach (new_pool tc m) tr s ->
  Size s = tc /\
  length (workers s) = Z.to_nat tc /\
  length (threads s) = Z.to_nat tc.
Proof.
  unfold INT_MAX. intros Htc Hr.
  destruct (reach_length _ _ _ Hr) as (Hw & Ht & _ & Hc).
  unfold Size. rewrite Hc, Hw, Ht. simpl. rewrite !length_replicate.
  unfold to_unsigned. rewrite Z.mod_small by lia. auto.
Qed.

Lemma size_is_fixed_witness : Size (snd stopped_pool) = 1.
Proof.
  refine (proj1 (size_is_fixed 1 1 (fst stopped_pool) (snd stopped_pool) _ _)).
  - unfold INT_MAX. lia.
  - apply (run_reach sched_stop). vm_compute. reflexivity.
Defined.

(** ** The order of a shutdown *)

(** X18: the order of the statements of [JoinAll] on a pool whose
    [finished] flag is clear, for the calls that get that far.  With
    [WaitForAll] the call enters [WaitAll], and it is at line 152 only after
    [WaitAll] has, in this call, read a counter that is zero (not positive,
    should the counter have overflowed); without, it goes to line 152 at
    once.  Line 152 sets [bailout] whatever is queued or running.  The call
    is at line 158, from which it returns, only when every thread has been
    joined, and a joined thread is over. *)
Theorem join_all_order tc m tr s c k pick :
  reach (new_pool tc m) tr s ->
  destroyed s = false ->
  (forall b, clients s !! c = Some (JaCheck b k) -> finished s = false ->
     step s (Run (C c) pick)
     = Some (EvTau,
             set_client c (if b then WaCheck (WaJoinAll k) else JaSet false k) s)) /\
  (forall a c' s', step s a = Some (EvIdle c', s') ->
     jobs_left s <= 0 /\ (outstanding tr <= INT_MAX -> jobs_left s = 0)) /\
  (clients s !! c = Some (JaSet true k) -> idle_seen c tr = true) /\
  (forall b, clients s !! c = Some (JaSet b k) ->
     step s (Run (C c) pick)
     = Some (EvBailout c, set_client c (JaNotify b k) (set_bailout true s))) /\
  (forall b, clients s !! c = Some (JaFinish b k) ->
     all_joined (threads s) /\ all_exited (workers s) /\
     step s (Run (C c) pick)
     = Some (EvStopped c, set_client c (ja_return k) (set_finished true s))).
Proof.
  intros Hr Hd.
  split; [|split; [|split; [|split]]].
  - intros b Hc Hf. unfold step, client_step. rewrite Hd, Hc. simpl. rewrite Hf.
    destruct b; reflexivity.
  - intros a c' s' Hs. pose proof (idle_event _ _ _ _ Hs) as Hle.
    split; [exact Hle|]. intros Hmax.
    pose proof (counter_inv_reach _ _ _ _ Hr) as (Hj & _).
    pose proof (outstanding_nonneg _ _ _ _ Hr) as H0.
    rewrite Hj in *. rewrite wrap_int_small in * by lia. lia.
  - intros Hc. exact (drain_inv_reach _ _ _ _ Hr _ _ Hc eq_refl).
  - intros b Hc. unfold step, client_step. rewrite Hd, Hc. reflexivity.
  - intros b Hc.
    pose proof (join_inv_reach _ _ _ _ Hr) as Hji.
    assert (Hj : all_joined (threads s)).
    { destruct Hji as (_ & _ & _ & Hcl). exact (Forall_lookup_1 _ _ _ _ Hcl Hc). }
    split; [exact Hj|]. split; [exact (joined_all_exited _ Hji Hj)|].
    unfold step, client_step. rewrite Hd, Hc. reflexivity.
Qed.

Lemma join_all_order_witness :
  idle_seen 0 (fst drained_pool) = true /\
  all_joined (threads (snd joined_pool)) /\ all_exited (workers (snd joined_pool)).
Proof.
  split.
  - refine (proj1 (proj2 (proj2 (join_all_order 1 1 (fst drained_pool)
                                   (snd drained_pool) 0 JUser 0 _ _))) _).
    + apply (run_reach sched_drain). vm_compute. reflexivity.
    + reflexivity.
    + reflexivity.
  - destruct (proj2 (proj2 (proj2 (proj2
               (join_all_order 1 1 (fst joined_pool) (snd joined_pool) 0 JUser 0
                  ltac:(apply (run_reach sched_drain_join); vm_compute; reflexivity)
                  eq_refl)))) true eq_refl) as (H1 & H2 & _).
    split; [exact H1|exact H2].
Defined.

(** ** The destructor *)

(** Which caller called [JoinAll] matters only for where it returns to. *)
Lemma step_reframe s c pick pc e s' :
  clients s !! c = Some pc -> pc <> DtorMembers ->
  step s (Run (C c) pick) = Some (e, s') ->
  step (reframe c s) (Run (C c) pick) = Some (e, reframe c s').
Proof.
  intros Hc Hne H.
  pose proof (lookup_lt_Some _ _ _ Hc) as Hlt.
  unfold reframe at 1. rewrite Hc.
  unfold step in *. simpl. destruct (destroyed s) eqn:Hd; [discriminate|].
  unfold client_step, AddJob, WaitAll, JoinAll, destroy_members in *. simpl.
  rewrite list_lookup_insert_eq by assumption. rewrite Hc in H.
  destruct pc; simpl in *; try congruence.
  all: break_step H; injection H as <- <-.
  all: unfold reframe; simpl.
  all: rewrite ?list_lookup_insert_eq by (rewrite ?length_insert; assumption).
  all: unfold set_client, set_clients, set_queue_mutex, set_wait_mutex, set_queue,
         set_futures, set_jobs_left, set_bailout, set_finished, set_workers,
         set_threads; simpl.
  all: rewrite ?list_insert_insert_eq.
  all: repeat match goal with
         | k : wframe |- _ => destruct k
         | k : jframe |- _ => destruct k
         end.
  all: reflexivity.
Qed.

(** X19: the destructor enters [JoinAll] with [WaitForAll = true] and runs
    the statements of [JoinAll(true)]: each of its steps is the step that a
    call by the user takes, up to the place of return.  On a pool whose
    [finished] flag it found clear, it is at line 158 only after it has seen
    the counter at zero in [WaitAll] and after all threads were joined and
    are over.  When it comes to destroy the members no thread is joinable
    any more, so [std::terminate] is not called; the promises of the tasks
    that are still queued are broken then. *)
Theorem destructor_runs_join_all tc m tr s c pick :
  reach (new_pool tc m) tr s ->
  destroyed s = false ->
  op_entry OpDestroy = JaCheck true JDtor /\
  as_user (op_entry OpDestroy) = op_entry (OpJoinAll true) /\
  (forall pc e s', clients s !! c = Some pc -> pc <> DtorMembers ->
     step s (Run (C c) pick) = Some (e, s') ->
     step (reframe c s) (Run (C c) pick) = Some (e, reframe c s')) /\
  (clients s !! c = Some (JaFinish true JDtor) ->
     idle_seen c tr = true /\
     all_joined (threads s) /\ all_exited (workers s) /\
     step s (Run (C c) pick)
     = Some (EvStopped c, set_client c DtorMembers (set_finished true s))) /\
  (clients s !! c = Some DtorMembers ->
     all_joined (threads s) /\ all_exited (workers s) /\
     step s (Run (C c) pick)
     = Some (EvDestroyed c,
             set_client c Idle
               (set_destroyed true
                  (set_futures (abandon_all (queue s) (futures s)) s)))).
Proof.
  intros Hr Hd.
  pose proof (join_inv_reach _ _ _ _ Hr) as Hji.
  split; [reflexivity|]. split; [reflexivity|]. split; [|split].
  - intros pc e s' Hc Hne Hs. eapply step_reframe; eauto.
  - intros Hc.
    assert (Hj : all_joined (threads s)).
    { destruct Hji as (_ & _ & _ & Hcl). exact (Forall_lookup_1 _ _ _ _ Hcl Hc). }
    split; [exact (drain_inv_reach _ _ _ _ Hr _ _ Hc eq_refl)|].
    split; [exact Hj|]. split; [exact (joined_all_exited _ Hji Hj)|].
    unfold step, client_step. rewrite Hd, Hc. reflexivity.
  - intros Hc.
    assert (Hj : all_joined (threads s)).
    { destruct Hji as (_ & _ & _ & Hcl). exact (Forall_lookup_1 _ _ _ _ Hcl Hc). }
    split; [exact Hj|]. split; [exact (joined_all_exited _ Hji Hj)|].
    unfold step, client_step, destroy_members. rewrite Hd, Hc.
    rewrite (proj2 (no_joinable _) Hj). reflexivity.
Qed.

Lemma destructor_runs_join_all_witness :
  idle_seen 0 (fst destroying_pool) = true /\
  all_joined (threads (snd destroying_pool)) /\
  all_exited (workers (snd destroying_pool)).
Proof.
  destruct (proj1 (proj2 (proj2 (proj2
             (destructor_runs_join_all 1 1 (fst destroying_pool) (snd destroying_pool) 0 0
                ltac:(apply (run_reach sched_destroy); vm_compute; reflexivity)
                eq_refl)))) eq_refl) as (H1 & H2 & H3 & _).
  split; [exact H1|]. split; [exact H2|exact H3].
Defined.

(** * Properties of the profiling counters *)

Lemma insert_total_id (a : list Z) i : <[i := a !!! i]> a = a.
Proof.
  destruct (a !! i) as [x|] eqn:Hx.
  - rewrite (list_lookup_total_correct _ _ _ Hx). apply list_insert_id. exact Hx.
  - apply list_insert_ge. apply lookup_ge_None. exact Hx.
Qed.

Lemma map_range_S f n a :
  Timer.map_range f (S n) a
  = <[n := f n (Timer.map_range f n a !!! n)]> (Timer.map_range f n a).
Proof. unfold Timer.map_range. rewrite seq_S, fold_left_app. reflexivity. Qed.

Lemma map_range_length f n a : length (Timer.map_range f n a) = length a.
Proof.
  induction n as [|n IH]; [reflexivity|].
  rewrite map_range_S, length_insert. exact IH.
Qed.

Lemma map_range_lookup f n a j :
  (j < length a)%nat ->
  Timer.map_range f n a !!! j = if decide (j < n)%nat then f j (a !!! j) else a !!! j.
Proof.
  intros Hj. induction n as [|n IH].
  - reflexivity.
  - rewrite map_range_S.
    destruct (decide (n = j)) as [->|Hne].
    + rewrite list_lookup_total_insert_eq by (rewrite map_range_length; exact Hj).
      rewrite IH. destruct (decide (j < j)%nat); [lia|].
      destruct (decide (j < S j)%nat); [reflexivity|lia].
    + rewrite list_lookup_total_insert_ne by exact Hne. rewrite IH.
      destruct (decide (j < n)%nat), (decide (j < S n)%nat); try reflexivity; lia.
Qed.

Lemma index_lt_slots step : (Timer.index step < Timer.SLOTS)%nat.
Proof. destruct step; simpl; unfold Timer.SLOTS; lia. Qed.

Lemma index_lt_end step : step <> Timer.END -> (Timer.index step < 7)%nat.
Proof. destruct step; simpl; intros H; try lia. congruence. Qed.

Lemma index_inj s1 s2 : Timer.index s1 = Timer.index s2 -> s1 = s2.
Proof. destruct s1, s2; simpl; intros H; try reflexivity; discriminate. Qed.

(** ** [clear] and the constructor *)

Lemma clear_arrays t :
  Timer.micros_array (Timer.clear t)
  = Timer.map_range (fun _ _ => 0) 7 (Timer.micros_array t) /\
  Timer.timer_micros (Timer.clear t)
  = Timer.map_range (fun _ _ => 0) 7 (Timer.timer_micros t) /\
  Timer.timer_count (Timer.clear t)
  = Timer.map_range (fun _ _ => 0) 7 (Timer.timer_count t) /\
  Timer.timer_count_additional (Timer.clear t)
  = Timer.map_range (fun _ _ => 0) 7 (Timer.timer_count_additional t) /\
  Timer.message (Timer.clear t) = Timer.message t.
Proof. repeat split; reflexivity. Qed.

Lemma clear_well_formed t : Timer.well_formed t -> Timer.well_formed (Timer.clear t).
Proof.
  intros (H1 & H2 & H3 & H4 & H5).
  destruct (clear_arrays t) as (E1 & E2 & E3 & E4 & E5).
  unfold Timer.well_formed. rewrite E1, E2, E3, E4, E5, !map_range_length. auto.
Qed.

Lemma debug_string_upto f t n r :
  (forall i, (i < n)%nat -> Timer.timer_count t !!! i <= 0) ->
  fold_left (Timer.report_slot f t) (seq 0 n) r = r.
Proof.
  intros H. induction n as [|n IH]; [reflexivity|].
  rewrite seq_S, fold_left_app, IH by (intros; apply H; lia).
  simpl. unfold Timer.report_slot.
  destruct (Z.ltb_spec 0 (Timer.timer_count t !!! n)) as [Hlt|]; [|reflexivity].
  specialize (H n ltac:(lia)). lia.
Qed.

Lemma map_range_zero a j :
  length a = Timer.SLOTS -> (j < 7)%nat ->
  Timer.map_range (fun _ _ => 0) 7 a !!! j = 0.
Proof.
  intros Ha Hj. rewrite map_range_lookup by (rewrite Ha; unfold Timer.SLOTS; lia).
  destruct (decide (j < 7)%nat); [reflexivity|lia].
Qed.

Lemma map_range_beyond f a j :
  length a = Timer.SLOTS -> (7 <= j < Timer.SLOTS)%nat ->
  Timer.map_range f 7 a !!! j = a !!! j.
Proof.
  intros Ha Hj. rewrite map_range_lookup by (rewrite Ha; lia).
  destruct (decide (j < 7)%nat); [lia|reflexivity].
Qed.

Lemma clear_zeroes t step :
  Timer.well_formed t -> step <> Timer.END ->
  Timer.micros_array (Timer.clear t) !!! Timer.index step = 0 /\
  Timer.timer_micros (Timer.clear t) !!! Timer.index step = 0 /\
  Timer.timer_count (Timer.clear t) !!! Timer.index step = 0 /\
  Timer.timer_count_additional (Timer.clear t) !!! Timer.index step = 0.
Proof.
  intros (H1 & H2 & H3 & H4 & H5) Hne. apply index_lt_end in Hne.
  destruct (clear_arrays t) as (E1 & E2 & E3 & E4 & E5).
  rewrite E1, E2, E3, E4. repeat split; apply map_range_zero; assumption.
Qed.

Lemma clear_keeps t j :
  Timer.well_formed t -> (7 <= j < Timer.SLOTS)%nat ->
  Timer.micros_array (Timer.clear t) !!! j = Timer.micros_array t !!! j /\
  Timer.timer_micros (Timer.clear t) !!! j = Timer.timer_micros t !!! j /\
  Timer.timer_count (Timer.clear t) !!! j = Timer.timer_count t !!! j /\
  Timer.timer_count_additional (Timer.clear t) !!! j
  = Timer.timer_count_additional t !!! j.
Proof.
  intros (H1 & H2 & H3 & H4 & H5) Hj.
  destruct (clear_arrays t) as (E1 & E2 & E3 & E4 & E5).
  rewrite E1, E2, E3, E4. repeat split; apply map_range_beyond; assumption.
Qed.

Lemma clear_silent f t :
  Timer.well_formed t -> Timer.DebugString f (Timer.clear t) = String.EmptyString.
Proof.
  intros (H1 & H2 & H3 & H4 & H5).
  destruct (clear_arrays t) as (E1 & E2 & E3 & E4 & E5).
  unfold Timer.DebugString, Timer.steps. simpl Nat.sub. simpl Timer.index.
  apply debug_string_upto. intros i Hi. rewrite E3, map_range_zero by assumption. lia.
Qed.

Lemma new_well_formed a b c d :
  length a = Timer.SLOTS -> length b = Timer.SLOTS ->
  length c = Timer.SLOTS -> length d = Timer.SLOTS ->
  Timer.well_formed (Timer.new a b c d).
Proof.
  intros Ha Hb Hc Hd. unfold Timer.new, Timer.init. apply clear_well_formed.
  unfold Timer.well_formed; simpl. repeat split; first [assumption|reflexivity].
Qed.

(** X12: [clear] zeroes the start time, the time, the count and the
    additional count of every step from [BEGIN] up to [END], [END] left out:
    the slots from [END] on keep what they held, and so do the names.  After
    it [DebugString] is empty. *)
Theorem clear_resets t :
  Timer.well_formed t ->
  (forall step, step <> Timer.END ->
     Timer.micros_array (Timer.clear t) !!! Timer.index step = 0 /\
     Timer.timer_micros (Timer.clear t) !!! Timer.index step = 0 /\
     Timer.timer_count (Timer.clear t) !!! Timer.index step = 0 /\
     Timer.timer_count_additional (Timer.clear t) !!! Timer.index step = 0) /\
  (forall j, (7 <= j < Timer.SLOTS)%nat ->
     Timer.micros_array (Timer.clear t) !!! j = Timer.micros_array t !!! j /\
     Timer.timer_micros (Timer.clear t) !!! j = Timer.timer_micros t !!! j /\
     Timer.timer_count (Timer.clear t) !!! j = Timer.timer_count t !!! j /\
     Timer.timer_count_additional (Timer.clear t) !!! j
     = Timer.timer_count_additional t !!! j) /\
  Timer.message (Timer.clear t) = Timer.message t /\
  Timer.well_formed (Timer.clear t) /\
  (forall f, Timer.DebugString f (Timer.clear t) = String.EmptyString).
Proof.
  intros Hwf. split; [|split; [|split; [|split]]].
  - intros step Hne. apply clear_zeroes; assumption.
  - intros j Hj. apply clear_keeps; assumption.
  - reflexivity.
  - apply clear_well_formed. exact Hwf.
  - intros f. apply clear_silent. exact Hwf.
Qed.

(** X13: a new [Timer] has all counters of the steps before [END] at zero
    and an empty [DebugString].  The six steps between [BEGIN] and [END] carry
    their names, [BEGIN] and [END] have the empty name, and the counters of
    slot [END] are never initialised: they hold what the memory held. *)
Theorem new_timer a b c d :
  length a = Timer.SLOTS -> length b = Timer.SLOTS ->
  length c = Timer.SLOTS -> length d = Timer.SLOTS ->
  Timer.well_formed (Timer.new a b c d) /\
  (forall step, step <> Timer.END ->
     Timer.micros_array (Timer.new a b c d) !!! Timer.index step = 0 /\
     Timer.timer_micros (Timer.new a b c d) !!! Timer.index step = 0 /\
     Timer.timer_count (Timer.new a b c d) !!! Timer.index step = 0 /\
     Timer.timer_count_additional (Timer.new a b c d) !!! Timer.index step = 0) /\
  Timer.message (Timer.new a b c d)
  = [""; "WRITE_IMMU_TO_LEVEL0"; "TOTAL_MOVE_TO_NVMTABLE"; "COMPUTE_OVERLLAP";
     "PICK_COMPACTION"; "DO_COMPACTION_WORK"; "DO_SPLITCOMPACTION_WORK"]%string
    ++ replicate 193 String.EmptyString /\
  (Timer.micros_array (Timer.new a b c d) !!! Timer.index Timer.END
   = a !!! Timer.index Timer.END /\
   Timer.timer_micros (Timer.new a b c d) !!! Timer.index Timer.END
   = b !!! Timer.index Timer.END /\
   Timer.timer_count (Timer.new a b c d) !!! Timer.index Timer.END
   = c !!! Timer.index Timer.END /\
   Timer.timer_count_additional (Timer.new a b c d) !!! Timer.index Timer.END
   = d !!! Timer.index Timer.END) /\
  (forall f, Timer.DebugString f (Timer.new a b c d) = String.EmptyString).
Proof.
  intros Ha Hb Hc Hd.
  unfold Timer.new, Timer.init.
  match goal with |- context [Timer.clear ?t] => set (t0 := t) end.
  assert (Hwf : Timer.well_formed t0).
  { unfold Timer.well_formed, t0; simpl.
    repeat split; first [assumption|reflexivity]. }
  split; [apply clear_well_formed; exact Hwf|].
  split; [intros step Hne; apply clear_zeroes; assumption|].
  split; [reflexivity|].
  split; [|intros f; apply clear_silent; exact Hwf].
  destruct (clear_keeps t0 7%nat Hwf) as (K1 & K2 & K3 & K4); [unfold Timer.SLOTS; lia|].
  simpl Timer.index. rewrite K1, K2, K3, K4. repeat split; reflexivity.
Qed.

Lemma new_timer_witness :
  Timer.timer_count (Timer.new (replicate 200 5) (replicate 200 6)
                       (replicate 200 7) (replicate 200 8))
  !!! Timer.index Timer.PICK_COMPACTION = 0.
Proof.
  destruct (new_timer (replicate 200 5) (replicate 200 6)
              (replicate 200 7) (replicate 200 8)) as (_ & Hz & _);
    try apply length_replicate.
  destruct (Hz Timer.PICK_COMPACTION) as (_ & _ & H & _); [discriminate|exact H].
Defined.

Lemma clear_resets_witness :
  Timer.message (Timer.clear (Timer.storage (replicate 200 5) (replicate 200 6)
                                (replicate 200 7) (replicate 200 8)))
  = replicate 200 String.EmptyString.
Proof.
  refine (proj1 (proj2 (proj2 (clear_resets _ _)))).
  repeat split; apply length_replicate.
Defined.

(** ** [StartTimer] and [Record] *)

Lemma index_ne s1 s2 : s1 <> s2 -> Timer.index s1 <> Timer.index s2.
Proof. intros H E. apply H. apply index_inj. exact E. Qed.

(** X14: [Record] after [StartTimer] on the same step adds the time that
    has passed, modulo 2^64, to the time of that step and one to its count;
    the overload with an additional count adds that count as well.  The
    start time stays, and no other step is touched.  The [assert] passes as
    soon as the start time is not zero.  When the clock has not run backwards
    and nothing overflows, the time added is [now1 - now0]. *)
Theorem start_then_record NDEBUG step now0 now1 extra t :
  Timer.well_formed t ->
  (NDEBUG = false -> now0 <> 0) ->
  exists t1 t2,
    Timer.Record NDEBUG step now1 (Timer.StartTimer step now0 t) = Some t1 /\
    Timer.Record_additional NDEBUG step extra now1 (Timer.StartTimer step now0 t)
    = Some t2 /\
    Timer.timer_micros t1 !!! Timer.index step
    = Timer.uint64 (Timer.timer_micros t !!! Timer.index step
                    + Timer.uint64 (now1 - now0)) /\
    Timer.timer_count t1 !!! Timer.index step
    = Timer.uint64 (Timer.timer_count t !!! Timer.index step + 1) /\
    Timer.micros_array t1 !!! Timer.index step = now0 /\
    Timer.timer_count_additional t1 = Timer.timer_count_additional t /\
    Timer.timer_micros t2 = Timer.timer_micros t1 /\
    Timer.timer_count t2 = Timer.timer_count t1 /\
    Timer.micros_array t2 = Timer.micros_array t1 /\
    Timer.timer_count_additional t2 !!! Timer.index step
    = Timer.uint64 (Timer.timer_count_additional t !!! Timer.index step + extra) /\
    (forall other, other <> step ->
       Timer.timer_micros t1 !!! Timer.index other
       = Timer.timer_micros t !!! Timer.index other /\
       Timer.timer_count t1 !!! Timer.index other
       = Timer.timer_count t !!! Timer.index other /\
       Timer.micros_array t1 !!! Timer.index other
       = Timer.micros_array t !!! Timer.index other /\
       Timer.timer_count_additional t2 !!! Timer.index other
       = Timer.timer_count_additional t !!! Timer.index other) /\
    Timer.message t1 = Timer.message t /\
    Timer.well_formed t1 /\ Timer.well_formed t2 /\
    (0 <= now0 <= now1 -> 0 <= Timer.timer_micros t !!! Timer.index step ->
     Timer.timer_micros t !!! Timer.index step + (now1 - now0) < 2 ^ 64 ->
     Timer.timer_micros t1 !!! Timer.index step
     = Timer.timer_micros t !!! Timer.index step + (now1 - now0)).
Proof.
  intros (H1 & H2 & H3 & H4 & H5) Hnow.
  pose proof (index_lt_slots step) as Hi.
  assert (Hstart : Timer.micros_array (Timer.StartTimer step now0 t) !!! Timer.index step
                   = now0).
  { simpl. apply list_lookup_total_insert_eq. rewrite H1. exact Hi. }
  assert (Hguard : negb NDEBUG
                   && (Timer.micros_array (Timer.StartTimer step now0 t)
                       !!! Timer.index step =? 0) = false).
  { rewrite Hstart. destruct NDEBUG; [reflexivity|]. simpl.
    apply Z.eqb_neq. apply Hnow. reflexivity. }
  unfold Timer.Record, Timer.Record_additional. cbv zeta.
  rewrite Hguard. eexists _, _.
  split; [reflexivity|]. split; [reflexivity|]. cbn [Timer.timer_micros
    Timer.timer_count Timer.micros_array Timer.timer_count_additional Timer.message
    Timer.StartTimer] in *.
  rewrite Hstart.
  split; [apply list_lookup_total_insert_eq; rewrite H2; exact Hi|].
  split; [apply list_lookup_total_insert_eq; rewrite H3; exact Hi|].
  split; [reflexivity|].
  split; [reflexivity|]. split; [reflexivity|]. split; [reflexivity|].
  split; [reflexivity|].
  split; [apply list_lookup_total_insert_eq; rewrite H4; exact Hi|].
  split.
  { intros other Hne. apply index_ne in Hne.
    rewrite !list_lookup_total_insert_ne by congruence. auto. }
  split; [reflexivity|].
  split; [unfold Timer.well_formed; simpl; rewrite !length_insert; auto|].
  split; [unfold Timer.well_formed; simpl; rewrite !length_insert; auto|].
  intros Hmono Hpos Hfit.
  rewrite list_lookup_total_insert_eq by (rewrite H2; exact Hi).
  unfold Timer.uint64. rewrite (Z.mod_small (now1 - now0)) by lia.
  apply Z.mod_small. lia.
Qed.

Lemma sample_well_formed : Timer.well_formed Timer.sample.
Proof.
  apply new_well_formed; apply length_replicate.
Qed.

Lemma start_then_record_witness :
  exists t1,
    Timer.Record false Timer.PICK_COMPACTION 130
      (Timer.StartTimer Timer.PICK_COMPACTION 100 Timer.sample) = Some t1 /\
    Timer.timer_micros t1 !!! Timer.index Timer.PICK_COMPACTION = 30.
Proof.
  destruct (start_then_record false Timer.PICK_COMPACTION 100 130 0 Timer.sample
              sample_well_formed ltac:(intros _; discriminate))
    as (t1 & t2 & Hr & _ & Hm & _).
  exists t1. split; [exact Hr|]. rewrite Hm. vm_compute. reflexivity.
Defined.

(** X15: with the [assert] compiled in, both overloads of [Record] abort on
    a step that was started when the clock read zero, and on a step before
    [END] that was not started since the last [clear].  [clear] leaves slot
    [END] as it is, so on [END] they abort exactly when the slot held zero
    before.  With [NDEBUG] both overloads go through on a step before [END]
    that was not started, and add the whole clock value as time passed. *)
Theorem record_unstarted t step now extra :
  Timer.well_formed t ->
  Timer.Record false step now (Timer.StartTimer step 0 t) = None /\
  Timer.Record_additional false step extra now (Timer.StartTimer step 0 t) = None /\
  (step <> Timer.END ->
   Timer.Record false step now (Timer.clear t) = None /\
   Timer.Record_additional false step extra now (Timer.clear t) = None /\
   exists t1 t2,
     Timer.Record true step now (Timer.clear t) = Some t1 /\
     Timer.Record_additional true step extra now (Timer.clear t) = Some t2 /\
     Timer.timer_micros t1 !!! Timer.index step = Timer.uint64 now /\
     Timer.timer_count t1 !!! Timer.index step = 1 /\
     Timer.timer_micros t2 !!! Timer.index step = Timer.uint64 now /\
     Timer.timer_count t2 !!! Timer.index step = 1 /\
     Timer.timer_count_additional t2 !!! Timer.index step = Timer.uint64 extra) /\
  (Timer.Record false Timer.END now (Timer.clear t) = None <->
   Timer.micros_array t !!! Timer.index Timer.END = 0) /\
  (Timer.Record_additional false Timer.END extra now (Timer.clear t) = None <->
   Timer.micros_array t !!! Timer.index Timer.END = 0).
Proof.
  intros Hwf.
  destruct (clear_well_formed t Hwf) as (C1 & C2 & C3 & C4 & C5).
  pose proof (index_lt_slots step) as Hi.
  pose proof Hwf as (H1 & _).
  assert (Hzero : Timer.micros_array (Timer.StartTimer step 0 t) !!! Timer.index step = 0).
  { cbn [Timer.micros_array Timer.StartTimer].
    apply list_lookup_total_insert_eq. rewrite H1. exact Hi. }
  unfold Timer.Record, Timer.Record_additional. cbv zeta. rewrite Hzero. simpl negb.
  split; [reflexivity|]. split; [reflexivity|]. split; [|split].
  - intros Hne.
    destruct (clear_zeroes t step Hwf Hne) as (Z1 & Z2 & Z3 & Z4).
    rewrite Z1. simpl andb. cbv iota.
    split; [reflexivity|]. split; [reflexivity|].
    eexists _, _. split; [reflexivity|]. split; [reflexivity|].
    cbn [Timer.timer_micros Timer.timer_count Timer.timer_count_additional].
    rewrite !list_lookup_total_insert_eq by (rewrite ?C2, ?C3, ?C4; exact Hi).
    rewrite Z2, Z3, Z4. unfold Timer.uint64. rewrite Z.sub_0_r, !Z.add_0_l.
    rewrite Z.mod_mod by lia. repeat split; reflexivity.
  - destruct (clear_keeps t 7%nat Hwf) as (K1 & _); [unfold Timer.SLOTS; lia|].
    simpl Timer.index. rewrite K1.
    destruct (Z.eqb_spec (Timer.micros_array t !!! 7%nat) 0) as [E|E]; simpl.
    + split; [intros _; exact E|reflexivity].
    + split; [discriminate|intros E'; contradiction].
  - destruct (clear_keeps t 7%nat Hwf) as (K1 & _); [unfold Timer.SLOTS; lia|].
    simpl Timer.index. rewrite K1.
    destruct (Z.eqb_spec (Timer.micros_array t !!! 7%nat) 0) as [E|E]; simpl.
    + split; [intros _; exact E|reflexivity].
    + split; [discriminate|intros E'; contradiction].
Qed.

Lemma record_unstarted_witness :
  Timer.Record false Timer.DO_COMPACTION_WORK 42 (Timer.clear Timer.sample) = None /\
  Timer.Record_additional false Timer.DO_COMPACTION_WORK 3 42
    (Timer.StartTimer Timer.DO_COMPACTION_WORK 0 Timer.sample) = None.
Proof.
  destruct (record_unstarted Timer.sample Timer.DO_COMPACTION_WORK 42 3
              sample_well_formed) as (_ & H2 & H3 & _).
  split; [|exact H2].
  exact (proj1 (H3 ltac:(discriminate))).
Defined.

(** ** [AppendTimerInfo] *)

Lemma append_upto other t n :
  let t' := fold_left (Timer.append_slot other) (seq 0 n) t in
  Timer.timer_micros t'
  = Timer.map_range
      (fun i x => if 0 <? Timer.timer_count other !!! i
                  then Timer.uint64 (x + Timer.timer_micros other !!! i) else x)
      n (Timer.timer_micros t) /\
  Timer.timer_count t'
  = Timer.map_range
      (fun i x => if 0 <? Timer.timer_count other !!! i
                  then Timer.uint64 (x + Timer.timer_count other !!! i) else x)
      n (Timer.timer_count t) /\
  Timer.timer_count_additional t'
  = Timer.map_range
      (fun i x => if 0 <? Timer.timer_count other !!! i
                  then Timer.uint64 (x + Timer.timer_count_additional other !!! i)
                  else x)
      n (Timer.timer_count_additional t) /\
  Timer.micros_array t' = Timer.micros_array t /\
  Timer.message t' = Timer.message t.
Proof.
  induction n as [|n IH]; [repeat split; reflexivity|].
  cbv zeta in *. rewrite seq_S, fold_left_app. simpl fold_left.
  destruct IH as (E1 & E2 & E3 & E4 & E5).
  rewrite !map_range_S. unfold Timer.append_slot at 1 3 5 7 9.
  destruct (0 <? Timer.timer_count other !!! n) eqn:Hc; simpl.
  - rewrite E1, E2, E3. auto.
  - rewrite !insert_total_id. auto.
Qed.

(** X16: [AppendTimerInfo] does nothing for the null pointer.  Otherwise,
    for every step before [END] of which the other timer has a positive
    count, it adds the other timer's time, count and additional count
    (modulo 2^64); a step that the other timer has not counted is left as it
    is, whatever time the other timer holds for it.  The start times, the
    names and the slots from [END] on are not touched. *)
Theorem append_timer_info other t :
  Timer.well_formed t ->
  Timer.AppendTimerInfo None t = t /\
  (forall step, step <> Timer.END ->
     let i := Timer.index step in
     let t' := Timer.AppendTimerInfo (Some other) t in
     (0 < Timer.timer_count other !!! i ->
      Timer.timer_micros t' !!! i
      = Timer.uint64 (Timer.timer_micros t !!! i + Timer.timer_micros other !!! i) /\
      Timer.timer_count t' !!! i
      = Timer.uint64 (Timer.timer_count t !!! i + Timer.timer_count other !!! i) /\
      Timer.timer_count_additional t' !!! i
      = Timer.uint64 (Timer.timer_count_additional t !!! i
                      + Timer.timer_count_additional other !!! i)) /\
     (Timer.timer_count other !!! i <= 0 ->
      Timer.timer_micros t' !!! i = Timer.timer_micros t !!! i /\
      Timer.timer_count t' !!! i = Timer.timer_count t !!! i /\
      Timer.timer_count_additional t' !!! i = Timer.timer_count_additional t !!! i)) /\
  (forall j, (7 <= j < Timer.SLOTS)%nat ->
     let t' := Timer.AppendTimerInfo (Some other) t in
     Timer.timer_micros t' !!! j = Timer.timer_micros t !!! j /\
     Timer.timer_count t' !!! j = Timer.timer_count t !!! j /\
     Timer.timer_count_additional t' !!! j = Timer.timer_count_additional t !!! j) /\
  Timer.micros_array (Timer.AppendTimerInfo (Some other) t) = Timer.micros_array t /\
  Timer.message (Timer.AppendTimerInfo (Some other) t) = Timer.message t /\
  Timer.well_formed (Timer.AppendTimerInfo (Some other) t).
Proof.
  intros (H1 & H2 & H3 & H4 & H5).
  pose proof (append_upto other t 7) as E. cbv zeta in E.
  unfold Timer.AppendTimerInfo, Timer.steps. simpl Nat.sub. simpl Timer.index.
  destruct E as (E1 & E2 & E3 & E4 & E5).
  split; [reflexivity|]. split; [|split; [|split; [exact E4|split; [exact E5|]]]].
  - intros step Hne. apply index_lt_end in Hne.
    rewrite E1, E2, E3.
    rewrite !map_range_lookup by (rewrite ?H2, ?H3, ?H4; unfold Timer.SLOTS; lia).
    destruct (decide (Timer.index step < 7)%nat); [|lia].
    split; intros Hc.
    + apply Z.ltb_lt in Hc. rewrite Hc. auto.
    + apply Z.ltb_ge in Hc. rewrite Hc. auto.
  - intros j Hj. rewrite E1, E2, E3.
    rewrite !map_range_lookup by (rewrite ?H2, ?H3, ?H4; lia).
    destruct (decide (j < 7)%nat); [lia|auto].
  - unfold Timer.well_formed. rewrite E1, E2, E3, E4, E5, !map_range_length. auto.
Qed.

Lemma append_timer_info_witness :
  Timer.AppendTimerInfo None Timer.sample = Timer.sample /\
  Timer.message (Timer.AppendTimerInfo (Some Timer.sample) Timer.sample)
  = Timer.message Timer.sample.
Proof.
  destruct (append_timer_info Timer.sample Timer.sample sample_well_formed)
    as (Hn & _ & _ & _ & Hm & _).
  split; [exact Hn|exact Hm].
Defined.

(** ** [DebugString] *)

(** X17: [DebugString] reports the steps before [END] that have a positive
    count and no others: it is empty when no step has been recorded, and a
    start time set by [StartTimer] does not change it. *)
Theorem debug_string_silent f t :
  ((forall step, step <> Timer.END ->
      Timer.timer_count t !!! Timer.index step <= 0) ->
   Timer.DebugString f t = String.EmptyString) /\
  (forall step now,
     Timer.DebugString f (Timer.StartTimer step now t) = Timer.DebugString f t).
Proof.
  split.
  - intros H. unfold Timer.DebugString, Timer.steps. simpl Nat.sub. simpl Timer.index.
    apply debug_string_upto. intros i Hi.
    destruct i as [|[|[|[|[|[|[|i]]]]]]]; try lia.
    + apply (H Timer.BEGIN). discriminate.
    + apply (H Timer.WRITE_IMMU_TO_LEVEL0). discriminate.
    + apply (H Timer.TOTAL_MOVE_TO_NVMTABLE). discriminate.
    + apply (H Timer.COMPUTE_OVERLLAP). discriminate.
    + apply (H Timer.PICK_COMPACTION). discriminate.
    + apply (H Timer.DO_COMPACTION_WORK). discriminate.
    + apply (H Timer.DO_SPLITCOMPACTION_WORK). discriminate.
  - intros step now. reflexivity.
Qed.

Lemma debug_string_silent_witness :
  Timer.DebugString (fun s _ => s)
    (Timer.StartTimer Timer.PICK_COMPACTION 100 Timer.sample)
  = String.EmptyString.
Proof.
  destruct (debug_string_silent (fun s _ => s) Timer.sample) as [He Hs].
  rewrite Hs. apply He. intros step Hne.
  destruct step; try (vm_compute; discriminate). congruence.
Defined.
